(** * CognicityReportsPowertrack: a shallow embedding

    The module under study connects to a Gnip PowerTrack stream, sorts every
    incoming tweet activity into a category from its Gnip rule tags, and runs
    the category's database and twitter actions.

    Conventions of the embedding:
    - a JavaScript string is a [string]; a value read out of the
      configuration is a [JsVal]; a number the code computes with is a
      [JsNum], a double;
    - the callbacks handed to [pg] and [twit] are run when the gateway
      answers; the gateways are oracles ([Pg], [Twit]) that decide, request
      by request, whether they answer with an error;
    - everything observable (log lines, gateway requests) is appended to a
      trace of [Effect]s, in program order;
    - a JavaScript exception is the [Throw] result of the monad [M];
    - the closure variables of [connectStream] form the record [Conn];
    - what the [gnip] module and the Node runtime do is written out where
      the code depends on it ([stream_start], [library_end], [node_delay],
      [object_prototype]), and left to an oracle of [Self] where it depends
      on the version of the runtime ([native_get], [number_text]). *)

From Stdlib Require Import String Ascii List Bool ZArith Lia Arith DecimalString Permutation.
Import ListNotations.
Open Scope string_scope.

(** ** Data *)

(** One entry of [tweetActivity.gnip.matching_rules]. *)
Record Rule := { tag : option string }.

(** [tweetActivity.geo]; [coordinates] holds the numbers as printed. *)
Record Geo := { coordinates : option (list string) }.

Record TweetActivity := {
  actor_preferredUsername : string;
  body : string;
  postedTime : string;
  twitter_lang : string;
  geo : option Geo;
  entities_hashtags : list string;
  entities_urls : list string;
  entities_user_mentions : list string;
  gnip_matching_rules : list Rule;
  (** [JSON.stringify] of the activity as it arrived; the fields above are
      the ones the module reads. *)
  activity_json : string
}.

(** The parameterised statement handed to [pg]: [{text: ..., values: [...]}]. *)
Record Query := { text : string; values : list string }.

(** ** JavaScript values *)

(** What a configuration object holds: data, no functions. *)
Inductive Setting :=
| SUndefined
| SNull
| SBool (b : bool)
| SNum (text : string) (nonzero : bool)
| SStr (s : string)
| SGroup (members : list (string * Setting)).

(** What a property read can return: a piece of the configuration, or a
    built-in function or object of the runtime, known by the text it prints
    as.  A number is known by its text and by whether it is truthy, the two
    things this module can see of it. *)
Inductive JsVal :=
| JOwn (s : Setting)
| JNative (text : string).

Notation JUndefined := (JOwn SUndefined).
Notation JNull := (JOwn SNull).
Notation JStr s := (JOwn (SStr s)).

(** The numbers the module computes with: the doubles that are non-negative
    integers, and +Infinity. *)
Inductive JsNum :=
| Num (z : Z)
| Infinity.

Record Config := {
  pg_conString : string;
  pg_table_all_users : string;
  pg_table_tweets : string;
  pg_table_invitees : string;
  pg_table_unconfirmed : string;
  pg_table_nonspatial_tweet_reports : string;
  pg_table_nonspatial_users : string;
  twitter_send_enabled : bool;
  twitter_defaultLanguage : string;
  (** The other own properties of [config.twitter]: the message tables
      ([config.twitter[code][lang]]) and whatever else is set there. *)
  twitter_entries : list (string * Setting);
  gnip_streamTimeout : Z;
  gnip_rules : list (string * string);
  (** [config.gnip.steamUrl], the key [connectStream] reads. *)
  gnip_steamUrl : option string
}.

Inductive Level := verbose | debug | info | warn | error.

Inductive Effect :=
| Log (l : Level) (msg : string)
| PgConnect (q : Query)
| ClientQuery (q : Query)
| PgDone
| UpdateStatus (status : string)
| RulesUpdate (newRules : list (string * string))
| StreamStart
| ReqDestroy
| ReqAbort
| ReqSetTimeout (ms : Z)
| ClearTimeout (handle : nat)
| SetTimeout (handle : nat) (ms : JsNum).

(** The database as this module sees it: the [user_hash] column of the table
    of all users, the only thing the module ever reads back. *)
Definition Db := list string.

(** The [pg] gateway.  [connect_error] and [query_error] say which requests
    fail; [md5] is the database's hash; [on_write] is what a successful
    statement other than the existence query does to the table of all users
    (rows added by triggers or stored procedures, none of them in this
    module). *)
Record Pg := {
  md5 : string -> string;
  connect_error : Query -> option string;
  query_error : Query -> option string;
  on_write : Query -> Db -> Db
}.

(** The [twit] gateway: the error, if any, [updateStatus] reports. *)
Record Twit := { updateStatus_error : string -> option string }.

(** ** The effect monad: state, trace and exceptions *)

Record Exn := { message : string; stack : string }.

(** The [gnip] module: the exception, if any, [Gnip.Stream.prototype.start]
    throws for the url the stream was built with. *)
Record Gnip := { start_throws : option string -> option Exn }.

(** The object itself, with what is left to the runtime:
    [new Date(Date.parse(t)).toLocaleString()]; a property read on a value
    that is not a configuration object (a string, a number, a built-in); the
    text of a number of 10^21 or more. *)
Record Self := {
  config : Config;
  twit : Twit;
  pg : Pg;
  gnip : Gnip;
  toLocaleString : string -> string;
  native_get : JsVal -> string -> JsVal;
  number_text : Z -> string
}.

Inductive Res (A : Type) :=
| Ok (a : A)
| Throw (e : Exn).
Arguments Ok {A} a.
Arguments Throw {A} e.

Record Out (A : Type) := mkOut { out_trace : list Effect; out_db : Db; out_res : Res A }.
Arguments mkOut {A} _ _ _.
Arguments out_trace {A} _.
Arguments out_db {A} _.
Arguments out_res {A} _.

Definition M (A : Type) := Db -> Out A.

Definition ret {A} (a : A) : M A := fun db => mkOut [] db (Ok a).

Definition bind {A B} (m : M A) (k : A -> M B) : M B :=
  fun db =>
    let o := m db in
    match out_res o with
    | Ok a =>
        let o' := k a (out_db o) in
        mkOut (out_trace o ++ out_trace o') (out_db o') (out_res o')
    | Throw e => mkOut (out_trace o) (out_db o) (Throw e)
    end.

Definition throw {A} (e : Exn) : M A := fun db => mkOut [] db (Throw e).

Definition try_catch (m : M unit) (h : Exn -> M unit) : M unit :=
  fun db =>
    let o := m db in
    match out_res o with
    | Ok a => o
    | Throw e =>
        let o' := h e (out_db o) in
        mkOut (out_trace o ++ out_trace o') (out_db o') (out_res o')
    end.

Definition emit (e : Effect) : M unit := fun db => mkOut [e] db (Ok tt).
Definition logger (l : Level) (msg : string) : M unit := emit (Log l msg).
Definition get_db : M Db := fun db => mkOut [] db (Ok db).
Definition put_db (db' : Db) : M unit := fun _ => mkOut [] db' (Ok tt).

Notation "x <- m ;; k" := (bind m (fun x => k))
  (at level 61, m at next level, right associativity).
Notation "m ;; k" := (bind m (fun _ => k))
  (at level 61, right associativity).

(** ** JavaScript helpers *)

(** Truthiness of a string: the empty string is falsy. *)
Definition truthy (s : string) : bool := negb (String.eqb s "").

(** [s.indexOf(p)]: the position of the first occurrence, or -1. *)
Definition indexOf (s p : string) : Z :=
  match String.index 0 p s with
  | Some n => Z.of_nat n
  | None => (-1)%Z
  end.

(** [a[i]] printed inside a concatenation. *)
Definition elem (a : list string) (i : nat) : string := nth i a "undefined".

Fixpoint join (sep : string) (l : list string) : string :=
  match l with
  | [] => ""
  | [x] => x
  | x :: r => x ++ sep ++ join sep r
  end.

(** [JSON.stringify] of an array of records already in JSON. *)
Definition stringify_array (l : list string) : string := "[" ++ join "," l ++ "]".

Definition quote (s : string) : string := String (ascii_of_nat 34) (s ++ String (ascii_of_nat 34) "").

Definition hex_digit (n : nat) : ascii :=
  nth n ["0"; "1"; "2"; "3"; "4"; "5"; "6"; "7"; "8"; "9"; "a"; "b"; "c"; "d"; "e"; "f"]%char "0"%char.

(** One character inside a JSON string: the quote, the backslash and the
    control characters are escaped. *)
Definition json_char (c : ascii) : string :=
  let n := nat_of_ascii c in
  let bs := String (ascii_of_nat 92) "" in
  if Nat.eqb n 34 then bs ++ String c ""
  else if Nat.eqb n 92 then bs ++ bs
  else if Nat.eqb n 8 then bs ++ "b"
  else if Nat.eqb n 9 then bs ++ "t"
  else if Nat.eqb n 10 then bs ++ "n"
  else if Nat.eqb n 12 then bs ++ "f"
  else if Nat.eqb n 13 then bs ++ "r"
  else if Nat.ltb n 32 then
    bs ++ "u00" ++ String (hex_digit (n / 16)) (String (hex_digit (n mod 16)) "")
  else String c "".

Fixpoint json_escape (s : string) : string :=
  match s with
  | EmptyString => EmptyString
  | String c r => json_char c ++ json_escape r
  end.

(** [JSON.stringify] of a string. *)
Definition json_string (s : string) : string := quote (json_escape s).

(** [JSON.stringify] of a query object. *)
Definition stringify (q : Query) : string :=
  "{" ++ quote "text" ++ ":" ++ json_string (text q) ++ "," ++ quote "values" ++ ":" ++
  stringify_array (map json_string (values q)) ++ "}".

(** The own property [k] of an object with the properties [l]. *)
Fixpoint assoc {A} (k : string) (l : list (string * A)) : option A :=
  match l with
  | [] => None
  | (k', v) :: r => if String.eqb k k' then Some v else assoc k r
  end.

(** Truthiness of a value. *)
Definition js_truthy (v : JsVal) : bool :=
  match v with
  | JOwn SUndefined | JOwn SNull => false
  | JOwn (SBool b) => b
  | JOwn (SNum _ nonzero) => nonzero
  | JOwn (SStr s) => truthy s
  | JOwn (SGroup _) => true
  | JNative _ => true
  end.

Definition native_function (name : string) : JsVal :=
  JNative ("function " ++ name ++ "() { [native code] }").

(** What every object inherits: the properties of [Object.prototype]. *)
Definition object_prototype (k : string) : JsVal :=
  if String.eqb k "constructor" then native_function "Object"
  else if String.eqb k "__proto__" then JNative "[object Object]"
  else if existsb (String.eqb k)
            ["hasOwnProperty"; "isPrototypeOf"; "propertyIsEnumerable"; "toLocaleString";
             "toString"; "valueOf"; "__defineGetter__"; "__defineSetter__";
             "__lookupGetter__"; "__lookupSetter__"]
       then native_function k
  else JUndefined.

(** The property read [v[k]]: on a configuration object the own property,
    else the inherited one; on anything else the runtime answers.  (The
    module reads no property of [undefined] or [null].) *)
Definition js_get (self : Self) (v : JsVal) (k : string) : JsVal :=
  match v with
  | JOwn (SGroup members) =>
      match assoc k members with
      | Some x => JOwn x
      | None => object_prototype k
      end
  | JOwn SUndefined | JOwn SNull => JUndefined
  | _ => native_get self v k
  end.

(** The text of a value inside a string concatenation; [None] when the
    conversion throws, which it does for an object whose own [toString] is
    not a function. *)
Definition to_text (v : JsVal) : option string :=
  match v with
  | JOwn SUndefined => Some "undefined"
  | JOwn SNull => Some "null"
  | JOwn (SBool b) => Some (if b then "true" else "false")
  | JOwn (SNum t _) => Some t
  | JOwn (SStr s) => Some s
  | JOwn (SGroup members) =>
      match assoc "toString" members with
      | Some _ => None
      | None => Some "[object Object]"
      end
  | JNative t => Some t
  end.

Definition str_of (m : JsVal) : string :=
  match to_text m with
  | Some s => s
  | None => "[object Object]"
  end.

(** ** Numbers *)

(** The double nearest to a positive integer (ties to even), as an integer:
    53 significant bits are kept. *)
Definition round53 (z : Z) : Z :=
  if (Z.log2 z <? 53)%Z then z else
  let sh := (Z.log2 z - 52)%Z in
  let q := (z / 2 ^ sh)%Z in
  let r := (z mod 2 ^ sh)%Z in
  let half := (2 ^ (sh - 1))%Z in
  ((if (half <? r)%Z || ((r =? half)%Z && Z.odd q) then q + 1 else q) * 2 ^ sh)%Z.

(** The product of two of these numbers, neither of them 0. *)
Definition js_mul (a b : JsNum) : JsNum :=
  match a, b with
  | Num x, Num y => if (round53 (x * y) <? 2 ^ 1024)%Z then Num (round53 (x * y)) else Infinity
  | _, _ => Infinity
  end.

Definition show_Z (z : Z) : string := NilZero.string_of_int (Z.to_int z).

(** The text of a number inside a concatenation. *)
Definition show_num (self : Self) (n : JsNum) : string :=
  match n with
  | Num z => if (z <? 10 ^ 21)%Z then show_Z z else number_text self z
  | Infinity => "Infinity"
  end.

Definition TIMEOUT_MAX : Z := 2147483647.

(** The delay Node gives a timer: the argument of [setTimeout], or 1 ms when
    the argument is below 1 or above [TIMEOUT_MAX]. *)
Definition node_delay (ms : JsNum) : Z :=
  match ms with
  | Num z => if (1 <=? z)%Z && (z <=? TIMEOUT_MAX)%Z then z else 1%Z
  | Infinity => 1%Z
  end.

(** ** getMessage *)

(** [config.twitter], with its own properties. *)
Definition twitter_object (cfg : Config) : JsVal :=
  JOwn (SGroup (("send_enabled", SBool (twitter_send_enabled cfg)) ::
                ("defaultLanguage", SStr (twitter_defaultLanguage cfg)) ::
                twitter_entries cfg)).

Definition getMessage (self : Self) (code lang : string) : M JsVal :=
  let unresolved :=
    logger warn ("getMessage: Code could not be resolved for '" ++ code ++ "' and lang '" ++ lang ++ "'") ;;
    ret JNull in
  let entry := js_get self (twitter_object (config self)) code in
  if js_truthy entry then
    if js_truthy (js_get self entry lang) then ret (js_get self entry lang)
    else if js_truthy (js_get self entry (twitter_defaultLanguage (config self)))
    then ret (js_get self entry (twitter_defaultLanguage (config self)))
    else unresolved
  else unresolved.

(** ** dbQuery *)

Definition select_user_text (cfg : Config) : string :=
  "SELECT user_hash FROM " ++ pg_table_all_users cfg ++ " WHERE user_hash = md5($1);".

(** What the database answers to a statement that did not fail: the rows of
    the result, and the table of all users afterwards.  The existence query
    returns the stored hashes equal to the hash of its argument and writes
    nothing. *)
Definition run_query (self : Self) (q : Query) (db : Db) : list string * Db :=
  if String.eqb (text q) (select_user_text (config self)) then
    (match values q with
     | u :: _ => filter (String.eqb (md5 (pg self) u)) db
     | [] => []
     end, db)
  else ([], on_write (pg self) q db).

(** The [catch] around the success callback. *)
Definition callback_failed (e : Exn) : M unit :=
  logger error ("dbQuery: Error in success callback: " ++ message e ++ ", " ++ stack e).

Definition dbQuery (self : Self) (q : Query) (success : option (list string -> M unit)) : M unit :=
  logger debug ("dbQuery: executing query: " ++ stringify q) ;;
  emit (PgConnect q) ;;
  match connect_error (pg self) q with
  | Some err =>
      logger error ("dbQuery: " ++ stringify q ++ ", " ++ err) ;;
      emit PgDone
  | None =>
      emit (ClientQuery q) ;;
      match query_error (pg self) q with
      | Some err =>
          logger error ("dbQuery: " ++ stringify q ++ ", " ++ err) ;;
          emit PgDone
      | None =>
          db <- get_db ;;
          put_db (snd (run_query self q db)) ;;
          emit PgDone ;;
          logger debug ("dbQuery: success: " ++ stringify q) ;;
          match success with
          | Some f =>
              try_catch (f (fst (run_query self q db))) callback_failed
          | None => ret tt
          end
      end
  end.

(** ** ifNewUser *)

Definition user_query (self : Self) (user : string) : Query :=
  {| text := select_user_text (config self); values := [user] |}.

Definition ifNewUser (self : Self) (user : string) (success : list string -> M unit) : M unit :=
  dbQuery self (user_query self user)
    (Some (fun result =>
       if Nat.eqb (length result) 0 then success result
       else logger debug "Not performing callback as user already exists")).

(** ** sendReplyTweet *)

Definition status_text (user : string) (msg : JsVal) : string :=
  "@" ++ user ++ " " ++ str_of msg.

Definition cannot_convert : Exn :=
  {| message := "Cannot convert object to primitive value"; stack := "TypeError" |}.

(** ['@'+user+' '+message], which throws when [message] has no text. *)
Definition concat_status (user : string) (msg : JsVal) : M string :=
  match to_text msg with
  | Some _ => ret (status_text user msg)
  | None => throw cannot_convert
  end.

Definition test_mode_line : string :=
  "sendReplyTweet is in test mode - no message will be sent. Callback will still run.".

Definition run_callback (callback : option (M unit)) : M unit :=
  match callback with Some cb => cb | None => ret tt end.

(** The function [sendReplyTweet] hands to [ifNewUser]. *)
Definition reply (self : Self) (user : string) (msg : JsVal)
    (callback : option (M unit)) (result : list string) : M unit :=
  if twitter_send_enabled (config self) then
    status <- concat_status user msg ;;
    emit (UpdateStatus status) ;;
    match updateStatus_error (twit self) status with
    | Some err => logger error ("Tweeting failed: " ++ err)
    | None => run_callback callback
    end
  else
    logger info test_mode_line ;;
    status <- concat_status user msg ;;
    logger info status ;;
    run_callback callback.

Definition sendReplyTweet (self : Self) (user : string) (msg : JsVal)
    (callback : option (M unit)) : M unit :=
  ifNewUser self user (reply self user msg callback).

(** ** The inserts *)

Definition type_error (what : string) : Exn :=
  {| message := "Cannot read property '" ++ what ++ "' of undefined"; stack := "TypeError" |}.

(** [tweetActivity.geo.coordinates], the dereference the two spatial inserts
    make while building their [values]. *)
Definition geo_coordinates (tweetActivity : TweetActivity) : M (list string) :=
  match geo tweetActivity with
  | None => throw (type_error "coordinates")
  | Some g =>
      match coordinates g with
      | None => throw (type_error "0")
      | Some c => ret c
      end
  end.

Definition confirmed_text (cfg : Config) : string :=
  "INSERT INTO " ++ pg_table_tweets cfg ++ " " ++
  "(created_at, text, hashtags, urls, user_mentions, lang, the_geom) " ++
  "VALUES (" ++
  "to_timestamp($1::text, 'Dy Mon DD YYYY HH24:MI:SS +ZZZZ'), " ++
  "$2, " ++ "$3, " ++ "$4, " ++ "$5, " ++ "$6, " ++
  "ST_GeomFromText('POINT($7)',4326)" ++ ");".

Definition upsert_text : string := "SELECT upsert_tweet_users(md5($1));".

Definition confirmed_query (self : Self) (tweetActivity : TweetActivity) (c : list string) : Query :=
  {| text := confirmed_text (config self);
     values := [ toLocaleString self (postedTime tweetActivity);
                 body tweetActivity;
                 stringify_array (entities_hashtags tweetActivity);
                 stringify_array (entities_urls tweetActivity);
                 stringify_array (entities_user_mentions tweetActivity);
                 twitter_lang tweetActivity;
                 elem c 0 ++ " " ++ elem c 1 ] |}.

Definition upsert_query (tweetActivity : TweetActivity) : Query :=
  {| text := upsert_text; values := [ actor_preferredUsername tweetActivity ] |}.

Definition insertConfirmed (self : Self) (tweetActivity : TweetActivity) : M unit :=
  c <- geo_coordinates tweetActivity ;;
  dbQuery self (confirmed_query self tweetActivity c)
    (Some (fun result =>
       logger info "Logged confirmed tweet report" ;;
       dbQuery self (upsert_query tweetActivity)
         (Some (fun result => logger info "Logged confirmed tweet user")))).

Definition invitee_query (self : Self) (tweetActivity : TweetActivity) : Query :=
  {| text := "INSERT INTO " ++ pg_table_invitees (config self) ++ " (user_hash) VALUES (md5($1));";
     values := [ actor_preferredUsername tweetActivity ] |}.

Definition insertInvitee (self : Self) (tweetActivity : TweetActivity) : M unit :=
  dbQuery self (invitee_query self tweetActivity)
    (Some (fun result => logger info "Logged new invitee")).

Definition unconfirmed_query (self : Self) (tweetActivity : TweetActivity) (c : list string) : Query :=
  {| text := "INSERT INTO " ++ pg_table_unconfirmed (config self) ++ " " ++
             "(created_at, the_geom) " ++
             "VALUES ( " ++
             "to_timestamp($1::text, 'Dy Mon DD YYYY HH24:MI:SS +ZZZZ'), " ++
             "ST_GeomFromText('POINT($2)',4326)" ++ ");";
     values := [ toLocaleString self (postedTime tweetActivity);
                 elem c 0 ++ " " ++ elem c 1 ] |}.

Definition insertUnConfirmed (self : Self) (tweetActivity : TweetActivity) : M unit :=
  c <- geo_coordinates tweetActivity ;;
  dbQuery self (unconfirmed_query self tweetActivity c)
    (Some (fun result => logger info "Logged unconfirmed tweet report")).

Definition nonspatial_query (self : Self) (tweetActivity : TweetActivity) : Query :=
  {| text := "INSERT INTO " ++ pg_table_nonspatial_tweet_reports (config self) ++ " " ++
             "(created_at, text, hashtags, urls, user_mentions, lang) " ++
             "VALUES (" ++
             "to_timestamp($1::text, 'Dy Mon DD YYYY H24:MI:SS +ZZZZ'), " ++
             "$2, " ++ "$3, " ++ "$4, " ++ "$5, " ++ "$6" ++ ");";
     values := [ toLocaleString self (postedTime tweetActivity);
                 body tweetActivity;
                 stringify_array (entities_hashtags tweetActivity);
                 stringify_array (entities_urls tweetActivity);
                 stringify_array (entities_user_mentions tweetActivity);
                 twitter_lang tweetActivity ] |}.

Definition nonspatial_user_query (self : Self) (tweetActivity : TweetActivity) : Query :=
  {| text := "INSERT INTO " ++ pg_table_nonspatial_users (config self) ++ " (user_hash) VALUES (md5($1));";
     values := [ actor_preferredUsername tweetActivity ] |}.

Definition insertNonSpatial (self : Self) (tweetActivity : TweetActivity) : M unit :=
  dbQuery self (nonspatial_query self tweetActivity)
    (Some (fun result => logger info "Inserted non-spatial tweet")) ;;
  ifNewUser self (actor_preferredUsername tweetActivity) (fun result =>
    dbQuery self (nonspatial_user_query self tweetActivity)
      (Some (fun result => logger info "Inserted non-spatial user"))).

(** ** filter *)

(** [hasGeo = (tweetActivity.geo && tweetActivity.geo.coordinates)], as a
    condition: an array is truthy whatever it holds. *)
Definition hasGeo (tweetActivity : TweetActivity) : bool :=
  match geo tweetActivity with
  | Some g => match coordinates g with Some _ => true | None => false end
  | None => false
  end.

(** The three flags the [forEach] over the matching rules sets. *)
Record Flags := { geoInBoundingBox : bool; addressed : bool; locationMatch : bool }.

Definition no_flags : Flags :=
  {| geoInBoundingBox := false; addressed := false; locationMatch := false |}.

(** The body of the [forEach] callback. *)
Definition visit_rule (f : Flags) (rule : Rule) : Flags :=
  match tag rule with
  | Some t =>
      if truthy t then
        {| geoInBoundingBox := if (indexOf t "geo" =? 0)%Z then true else geoInBoundingBox f;
           addressed := if (indexOf t "addressed" =? 0)%Z then true else addressed f;
           locationMatch := if (indexOf t "location" =? 0)%Z then true else locationMatch f |}
      else f
  | None => f
  end.

Definition categorize (rules : list Rule) : Flags := fold_left visit_rule rules no_flags.

Definition sign (b : bool) : string := if b then "+" else "-".

Definition tweetCategorizations (f : Flags) (g : bool) : string :=
  sign (geoInBoundingBox f) ++ "BOUNDINGBOX " ++
  sign g ++ "GEO " ++
  sign (addressed f) ++ "ADDRESSED " ++
  sign (locationMatch f) ++ "LOCATION".

(** [s.replace("\n", "")]: only the first line feed goes. *)
Fixpoint replace_newline (s : string) : string :=
  match s with
  | EmptyString => EmptyString
  | String c r => if Ascii.eqb c (ascii_of_nat 10) then r else String c (replace_newline r)
  end.

Definition received_line (tweetActivity : TweetActivity) : string :=
  "filter: Received tweetActivity: screen_name=" ++ quote (actor_preferredUsername tweetActivity) ++
  ", text=" ++ quote (replace_newline (body tweetActivity)) ++
  ", coordinates=" ++
  quote (match geo tweetActivity with
         | Some g => match coordinates g with
                     | Some c => elem c 0 ++ ", " ++ elem c 1
                     | None => "N/A"
                     end
         | None => "N/A"
         end).

(** The categories [filter] tells apart. *)
Inductive Verdict := Confirmed | AskForGeo | Unconfirmed | Invite | Unmatched.

(** The actions of each branch of [filter]. *)
Definition action (self : Self) (tweetActivity : TweetActivity) (cats : string) (v : Verdict) : M unit :=
  match v with
  | Confirmed =>
      logger verbose "filter: +BOUNDINGBOX +ADDRESSED = confirmed report" ;;
      insertConfirmed self tweetActivity
  | AskForGeo =>
      logger verbose "filter: -BOUNDINGBOX -GEO +ADDRESSED +LOCATION = ask user for geo" ;;
      insertNonSpatial self tweetActivity ;;
      m <- getMessage self "thanks_text" (twitter_lang tweetActivity) ;;
      sendReplyTweet self (actor_preferredUsername tweetActivity) m None
  | Unconfirmed =>
      logger verbose "filter: +BOUNDINGBOX -ADDRESSED = unconfirmed report, ask user to participate" ;;
      insertUnConfirmed self tweetActivity ;;
      m <- getMessage self "invite_text" (twitter_lang tweetActivity) ;;
      sendReplyTweet self (actor_preferredUsername tweetActivity) m
        (Some (insertInvitee self tweetActivity))
  | Invite =>
      logger verbose "filter: -BOUNDINGBOX -GEO -ADDRESSED +LOCATION = ask user to participate" ;;
      m <- getMessage self "invite_text" (twitter_lang tweetActivity) ;;
      sendReplyTweet self (actor_preferredUsername tweetActivity) m
        (Some (insertInvitee self tweetActivity))
  | Unmatched =>
      logger warn ("filter: Tweet did not match category actions: " ++ cats)
  end.

(** The lines [filter] logs before it branches. *)
Definition prelude (tweetActivity : TweetActivity) : M unit :=
  logger verbose (received_line tweetActivity) ;;
  logger verbose ("filter: Categorized tweetActivity via Gnip tags as " ++
                  tweetCategorizations (categorize (gnip_matching_rules tweetActivity))
                                       (hasGeo tweetActivity)).

Definition filter (self : Self) (tweetActivity : TweetActivity) : M unit :=
  prelude tweetActivity ;;
  let g := hasGeo tweetActivity in
  let f := categorize (gnip_matching_rules tweetActivity) in
  let act := action self tweetActivity (tweetCategorizations f g) in
  if geoInBoundingBox f && addressed f then act Confirmed
  else if negb (geoInBoundingBox f) && negb g && addressed f && locationMatch f then act AskForGeo
  else if geoInBoundingBox f && negb (addressed f) then act Unconfirmed
  else if negb (geoInBoundingBox f) && negb g && negb (addressed f) && locationMatch f then act Invite
  else act Unmatched.

(** The priority table of the specification: the condition of each row, and
    the rows in their order.  A tweet gets the first row whose condition
    holds. *)
Definition row_holds (f : Flags) (g : bool) (v : Verdict) : bool :=
  match v with
  | Confirmed => geoInBoundingBox f && addressed f
  | AskForGeo => negb (geoInBoundingBox f) && negb g && addressed f && locationMatch f
  | Unconfirmed => geoInBoundingBox f && negb (addressed f)
  | Invite => negb (geoInBoundingBox f) && negb g && negb (addressed f) && locationMatch f
  | Unmatched => true
  end.

Definition priority_table : list Verdict := [Confirmed; AskForGeo; Unconfirmed; Invite; Unmatched].

Definition first_row (f : Flags) (g : bool) : option Verdict :=
  find (row_holds f g) priority_table.

(** A rule carries a tag of the family [p]. *)
Definition tagged (p : string) (rule : Rule) : bool :=
  match tag rule with
  | Some t => String.prefix p t
  | None => false
  end.

(** ** connectStream *)

(** The variables the handlers of [connectStream] close over, with what they
    act upon: whether the stream holds a request ([stream._req]), and the
    timers of the event loop that [setTimeout] has queued and that have
    neither run nor been cleared, each with the delay Node gave it. *)
Record Conn := {
  streamReconnectTimeout : JsNum;
  reconnectTimeoutHandle : option nat;
  req : bool;
  timers : list (nat * Z);
  next_handle : nat
}.

Definition clear_timer (h : nat) (l : list (nat * Z)) : list (nat * Z) :=
  List.filter (fun t => negb (Nat.eqb (fst t) h)) l.

Definition reconnectStream (self : Self) (c : Conn) : list Effect * Conn :=
  (((match reconnectTimeoutHandle c with Some h => [ClearTimeout h] | None => [] end) ++
    [Log info ("connectStream: queing reconnect for " ++ show_num self (streamReconnectTimeout c));
     SetTimeout (next_handle c) (js_mul (streamReconnectTimeout c) (Num 1000))])%list,
   {| streamReconnectTimeout := streamReconnectTimeout c;
      reconnectTimeoutHandle := Some (next_handle c);
      req := req c;
      timers := ((match reconnectTimeoutHandle c with
                  | Some h => clear_timer h (timers c)
                  | None => timers c
                  end) ++
                 [(next_handle c, node_delay (js_mul (streamReconnectTimeout c) (Num 1000)))])%list;
      next_handle := S (next_handle c) |}).

(** The closure variables as [connectStream] declares them. *)
Definition initial_conn : Conn :=
  {| streamReconnectTimeout := Num 1;
     reconnectTimeoutHandle := None;
     req := false;
     timers := [];
     next_handle := 0 |}.

Definition on_error (self : Self) (err : string) (c : Conn) : list Effect * Conn :=
  let r := reconnectStream self c in
  (Log error ("connectStream: Error connecting stream:" ++ err) :: fst r, snd r).

Definition on_end (self : Self) (c : Conn) : list Effect * Conn :=
  let r := reconnectStream self c in
  (Log error "connectStream: Stream ended" :: fst r, snd r).

(** The callback given to [stream._req.setTimeout]. *)
Definition on_req_timeout (self : Self) (c : Conn) : list Effect * Conn := reconnectStream self c.

(** The stream has dropped its request: [Gnip.Stream.prototype.end] sets
    [_req] to null before it emits 'end'. *)
Definition ended (c : Conn) : Conn :=
  {| streamReconnectTimeout := streamReconnectTimeout c;
     reconnectTimeoutHandle := reconnectTimeoutHandle c;
     req := false;
     timers := timers c;
     next_handle := next_handle c |}.

Definition requesting (c : Conn) : Conn :=
  {| streamReconnectTimeout := streamReconnectTimeout c;
     reconnectTimeoutHandle := reconnectTimeoutHandle c;
     req := true;
     timers := timers c;
     next_handle := next_handle c |}.

(** [Gnip.Stream.prototype.end]: with a request at hand it is aborted and
    dropped, and 'end' is emitted, which runs the handler above at once;
    without one nothing happens. *)
Definition library_end (self : Self) (c : Conn) : list Effect * Conn :=
  if req c then
    let r := on_end self (ended c) in (ReqAbort :: fst r, snd r)
  else ([], c).

Definition invalid_end_point : Exn :=
  {| message := "Invalid end point specified!"; stack := "Error" |}.

(** [stream.start()], as [Gnip.Stream.prototype.start] goes about it: it
    throws when it finds the url wanting; it ends the request it still
    holds; it opens a new one. *)
Definition stream_start (self : Self) (c : Conn) : list Effect * Res Conn :=
  match start_throws (gnip self) (gnip_steamUrl (config self)) with
  | Some e => ([StreamStart], Throw e)
  | None =>
      let r := library_end self c in
      (StreamStart :: fst r, Ok (requesting (snd r)))
  end.

Definition reconnectSocket (self : Self) (c : Conn) : list Effect * Res Conn :=
  let before :=
    ([Log warn "connectStream: Connection lost, destroying socket"] ++
     (if req c then [ReqDestroy] else []) ++
     [Log info "connectStream: Attempting to reconnect stream"])%list in
  match stream_start self c with
  | (tr, Ok c1) =>
      ((before ++ tr)%list,
       Ok {| streamReconnectTimeout := js_mul (streamReconnectTimeout c1) (Num 2);
             reconnectTimeoutHandle := reconnectTimeoutHandle c1;
             req := req c1;
             timers := timers c1;
             next_handle := next_handle c1 |})
  | (tr, Throw e) => ((before ++ tr)%list, Throw e)
  end.

(** The 'ready' handler; [stream._req.setTimeout] needs the request. *)
Definition on_ready (self : Self) (c : Conn) : list Effect * Res Conn :=
  if req c then
    ([Log info "connectStream: Stream ready!"; ReqSetTimeout (gnip_streamTimeout (config self))],
     Ok {| streamReconnectTimeout := Num 1;
           reconnectTimeoutHandle := reconnectTimeoutHandle c;
           req := req c;
           timers := timers c;
           next_handle := next_handle c |})
  else ([Log info "connectStream: Stream ready!"], Throw (type_error "setTimeout")).

(** The event loop runs the timer [h]: nothing happens unless it is still
    queued. *)
Definition timer_fires (self : Self) (h : nat) (c : Conn) : list Effect * Res Conn :=
  if existsb (fun t => Nat.eqb (fst t) h) (timers c) then
    reconnectSocket self
      {| streamReconnectTimeout := streamReconnectTimeout c;
         reconnectTimeoutHandle := reconnectTimeoutHandle c;
         req := req c;
         timers := clear_timer h (timers c);
         next_handle := next_handle c |}
  else ([], Ok c).

Definition stringify_tweet (tweetActivity : TweetActivity) : string :=
  activity_json tweetActivity.

Definition on_tweet (self : Self) (tweetActivity : TweetActivity) : M unit :=
  logger debug ("connectStream: stream.on('tweet'): tweet = " ++ stringify_tweet tweetActivity) ;;
  try_catch (filter self tweetActivity)
    (fun err => logger error ("connectStream: stream.on('tweet'): Error on handler:" ++ message err ++ ", " ++ stack err)).

(** The callback of [rules.update]. *)
Definition rules_updated (self : Self) (err : option Exn) (c : Conn) : list Effect * Res Conn :=
  match err with
  | Some e => ([], Throw e)
  | None =>
      let r := stream_start self c in
      (Log info "connectStream: Connecting stream..." :: fst r, snd r)
  end.

(** The synchronous part of [connectStream]: the rules are built from the
    configuration and pushed. *)
Definition connectStream (self : Self) : M unit :=
  logger debug ("connectStream: Rules = " ++
                stringify_array (map (fun r => "{" ++ quote "tag" ++ ":" ++ json_string (fst r) ++ "," ++
                                               quote "value" ++ ":" ++ json_string (snd r) ++ "}")
                                     (gnip_rules (config self)))) ;;
  logger info "connectStream: Updating rules..." ;;
  emit (RulesUpdate (gnip_rules (config self))).

(** ** The process *)

(** What the event loop can hand to the handlers [connectStream] installed. *)
Inductive Signal :=
| RulesAnswer (err : option Exn)
| Ready
| Tweet (tweetActivity : TweetActivity)
| StreamError (err : string)
| StreamEnd
| ReqTimeout
| TimerFires (handle : nat).

Record Proc := { conn : Conn; store : Db }.

(** One turn of the event loop.  [Throw] is an exception no handler caught:
    the process dies. *)
Definition deliver (self : Self) (s : Signal) (p : Proc) : list Effect * Res Proc :=
  let pure (r : list Effect * Conn) := (fst r, Ok {| conn := snd r; store := store p |}) in
  let may_throw (r : list Effect * Res Conn) :=
    (fst r,
     match snd r with
     | Ok c => Ok {| conn := c; store := store p |}
     | Throw e => Throw e
     end) in
  match s with
  | RulesAnswer err => may_throw (rules_updated self err (conn p))
  | Ready => may_throw (on_ready self (conn p))
  | Tweet t =>
      let o := on_tweet self t (store p) in
      (out_trace o,
       match out_res o with
       | Ok _ => Ok {| conn := conn p; store := out_db o |}
       | Throw e => Throw e
       end)
  | StreamError err => pure (on_error self err (conn p))
  | StreamEnd => pure (on_end self (ended (conn p)))
  | ReqTimeout => pure (on_req_timeout self (conn p))
  | TimerFires h => may_throw (timer_fires self h (conn p))
  end.

(** ** Vocabulary of the properties *)

(** What the existence query for [user] comes back with: [None] when the
    connection or the statement fails, the rows otherwise. *)
Definition existence_query (self : Self) (user : string) (db : Db) : option (list string) :=
  match connect_error (pg self) (user_query self user), query_error (pg self) (user_query self user) with
  | None, None => Some (List.filter (String.eqb (md5 (pg self) user)) db)
  | _, _ => None
  end.

(** The trace of a [dbQuery] whose connection and statement both succeed, up
    to the point where the success callback is entered. *)
Definition answered (q : Query) : list Effect :=
  [Log debug ("dbQuery: executing query: " ++ stringify q); PgConnect q; ClientQuery q;
   PgDone; Log debug ("dbQuery: success: " ++ stringify q)].

(** The line the [catch] of [dbQuery] logs when the status cannot be put
    together. *)
Definition cannot_convert_line : Effect :=
  Log error ("dbQuery: Error in success callback: " ++ message cannot_convert ++ ", " ++
             stack cannot_convert).

(** The value has a text: putting it into a string does not throw. *)
Definition printable (v : JsVal) : bool :=
  match to_text v with
  | Some _ => true
  | None => false
  end.

(** The value [getMessage] settles on: what [config.twitter[code]] holds
    under the language when that is truthy, else under the default language
    when that is truthy, else null. *)
Definition resolve (self : Self) (code lang : string) : JsVal :=
  let entry := js_get self (twitter_object (config self)) code in
  if js_truthy entry then
    if js_truthy (js_get self entry lang) then js_get self entry lang
    else if js_truthy (js_get self entry (twitter_defaultLanguage (config self)))
    then js_get self entry (twitter_defaultLanguage (config self))
    else JNull
  else JNull.

(** The line [getMessage] logs when it returns null. *)
Definition unresolved_line (code lang : string) : Effect :=
  Log warn ("getMessage: Code could not be resolved for '" ++ code ++ "' and lang '" ++ lang ++ "'").


(** A message table as [config.twitter] holds it. *)
Definition table (texts : list (string * string)) : Setting :=
  SGroup (map (fun e => (fst e, SStr (snd e))) texts).



(** A notification was dispatched somewhere in [pre]: a status the twitter
    gateway accepted when sending is enabled, the test-mode line when it is
    not. *)
Definition dispatched (self : Self) (pre : list Effect) : Prop :=
  (twitter_send_enabled (config self) = true /\
   exists s, In (UpdateStatus s) pre /\ updateStatus_error (twit self) s = None) \/
  (twitter_send_enabled (config self) = false /\ In (Log info test_mode_line) pre).

(** Every occurrence of [x] in the trace comes after a dispatch. *)
Definition after_dispatch (self : Self) (x : Effect) (tr : list Effect) : Prop :=
  forall pre post, tr = (pre ++ x :: post)%list -> dispatched self pre.

(** The message code of the reply each branch of [filter] sends, if it
    sends one. *)
Definition reply_code (v : Verdict) : option string :=
  match v with
  | AskForGeo => Some "thanks_text"
  | Unconfirmed | Invite => Some "invite_text"
  | Confirmed | Unmatched => None
  end.

(** The table of all users as [filter] has left it when the branch gets to
    its reply. *)
Definition store_at_reply (self : Self) (t : TweetActivity) (v : Verdict) (db : Db) : Db :=
  match v with
  | AskForGeo => out_db (insertNonSpatial self t db)
  | Unconfirmed => out_db (insertUnConfirmed self t db)
  | _ => db
  end.

(** The statements handed to the database during a trace, in order. *)
Fixpoint connects (tr : list Effect) : list Query :=
  match tr with
  | [] => []
  | PgConnect q :: r => q :: connects r
  | _ :: r => connects r
  end.

(** The statuses handed to twitter during a trace, in order. *)
Fixpoint statuses (tr : list Effect) : list string :=
  match tr with
  | [] => []
  | UpdateStatus s :: r => s :: statuses r
  | _ :: r => statuses r
  end.

(** The report insert went through: the connection and the statement. *)
Definition report_inserted (self : Self) (q : Query) : bool :=
  match connect_error (pg self) q, query_error (pg self) q with
  | None, None => true
  | _, _ => false
  end.

(** The three ways a session is found broken, with the signal each arrives
    as. *)
Inductive Trigger := IdleTimeout | ErrorSignal (err : string) | EndSignal.

Definition signal_of (tr : Trigger) : Signal :=
  match tr with
  | IdleTimeout => ReqTimeout
  | ErrorSignal err => StreamError err
  | EndSignal => StreamEnd
  end.

Definition trigger (self : Self) (tr : Trigger) (c : Conn) : list Effect * Conn :=
  match tr with
  | IdleTimeout => on_req_timeout self c
  | ErrorSignal err => on_error self err c
  | EndSignal => on_end self (ended c)
  end.

(** Triggers arriving one after the other, no timer running in between. *)
Definition triggers (self : Self) (trs : list Trigger) (c : Conn) : Conn :=
  fold_left (fun c tr => snd (trigger self tr c)) trs c.

(** The state a turn leaves; a turn that throws leaves none, and the state
    before it stands in. *)
Definition conn_after (r : list Effect * Res Conn) (c : Conn) : Conn :=
  match snd r with
  | Ok c' => c'
  | Throw _ => c
  end.

(** The event loop runs the timer [reconnectTimeoutHandle] refers to. *)
Definition fire_pending (self : Self) (c : Conn) : Conn :=
  match reconnectTimeoutHandle c with
  | Some h => conn_after (timer_fires self h c) c
  | None => c
  end.

(** One failed reconnect attempt: the session is found broken, by one
    trigger or several, and the queued reconnect runs. *)
Definition failed_attempt (self : Self) (c : Conn) (trs : list Trigger) : Conn :=
  fire_pending self (triggers self trs c).

Definition failed_attempts (self : Self) (rounds : list (list Trigger)) (c : Conn) : Conn :=
  fold_left (failed_attempt self) rounds c.

(** The turns that end in an uncaught exception [e]. *)
Definition fatal (self : Self) (s : Signal) (p : Proc) (e : Exn) : Prop :=
  s = RulesAnswer (Some e) \/
  (start_throws (gnip self) (gnip_steamUrl (config self)) = Some e /\
   (s = RulesAnswer None \/
    exists h, s = TimerFires h /\ existsb (fun t => Nat.eqb (fst t) h) (timers (conn p)) = true)) \/
  (s = Ready /\ req (conn p) = false /\ e = type_error "setTimeout").

(** The signals whose handlers let nothing out: tweets and the reports of a
    broken session. *)
Definition harmless (s : Signal) : bool :=
  match s with
  | Tweet _ | StreamError _ | StreamEnd | ReqTimeout => true
  | _ => false
  end.

(** A power of two that a double holds, or what the doubling overflows
    to. *)
Definition power_of_two (T : JsNum) : Prop :=
  T = Infinity \/ exists n, (0 <= n <= 1023)%Z /\ T = Num (2 ^ n).

(** The stream can be started: the [gnip] module finds nothing wrong with
    the url the configuration gives it. *)
Definition startable (self : Self) : Prop :=
  start_throws (gnip self) (gnip_steamUrl (config self)) = None.

(** A run of the event loop. *)
Fixpoint run (self : Self) (sigs : list Signal) (p : Proc) : list Effect * Res Proc :=
  match sigs with
  | [] => ([], Ok p)
  | s :: r =>
      match deliver self s p with
      | (tr, Ok p') => let o := run self r p' in ((tr ++ fst o)%list, snd o)
      | (tr, Throw e) => (tr, Throw e)
      end
  end.

(** The states of the process: what a run from the start can reach. *)
Definition reachable (self : Self) (p : Proc) : Prop :=
  exists sigs db tr, run self sigs {| conn := initial_conn; store := db |} = (tr, Ok p).

(** The timers queued are the one [reconnectTimeoutHandle] refers to, if any,
    and handles are handed out in increasing order. *)
Definition one_timer (c : Conn) : Prop :=
  (forall h, reconnectTimeoutHandle c = Some h -> h < next_handle c) /\
  (timers c = [] \/
   exists h d, timers c = [(h, d)] /\ reconnectTimeoutHandle c = Some h).

(** ** Sample values *)

(** A configuration with the values of [powertrack-config.js] where that
    file sets them, and sample values for the rest, the url of the stream
    under the key the code reads among them. *)
Definition sample_config : Config :=
  {| pg_conString := "postgres://localhost/cognicity";
     pg_table_all_users := "twitter.all_users";
     pg_table_tweets := "twitter.tweet_reports";
     pg_table_invitees := "twitter.invitees";
     pg_table_unconfirmed := "twitter.tweet_reports_unconfirmed";
     pg_table_nonspatial_tweet_reports := "twitter.nonspatial_tweet_reports";
     pg_table_nonspatial_users := "twitter.nonspatial_tweet_users";
     twitter_send_enabled := true;
     twitter_defaultLanguage := "en";
     twitter_entries :=
       [("invite_text", table [("en", "Invite/Verification Tweet Text"); ("id", "Undangan")]);
        ("thanks_text", table [("en", "Thanks/location-enabled reminder Tweet Text")]);
        ("url_length", SNum "0" false);
        ("addTimestamp", SBool false)];
     gnip_streamTimeout := 60000;
     gnip_rules := [("boundingbox", "(contains:flood OR contains:rains)");
                    ("addressed", "(contains:flood OR contains:rains OR contains:prep) @riskmapindia");
                    ("location", "(contains:flood OR contains:rains) (bio_location:chennai)")];
     gnip_steamUrl := Some "https://stream.gnip.com:443/accounts/riskmap/publishers/twitter/streams/track/prod.json" |}.

(** Gateways that never fail; the hash is a stand-in. *)
Definition sample_pg : Pg :=
  {| md5 := fun u => "md5:" ++ u;
     connect_error := fun _ => None;
     query_error := fun _ => None;
     on_write := fun _ db => db |}.

Definition sample_twit : Twit := {| updateStatus_error := fun _ => None |}.

(** The check at the head of [Gnip.Stream.prototype.start]: a url that is
    missing or empty is refused. *)
Definition gnip_module : Gnip :=
  {| start_throws := fun url =>
       match url with
       | Some u => if truthy u then None else Some invalid_end_point
       | None => Some invalid_end_point
       end |}.

(** A stand-in for the runtime's answers: the length of a string, and
    nothing else. *)
Definition sample_native_get (v : JsVal) (k : string) : JsVal :=
  match v with
  | JOwn (SStr s) =>
      if String.eqb k "length"
      then JOwn (SNum (show_Z (Z.of_nat (String.length s))) (negb (Nat.eqb (String.length s) 0)))
      else JUndefined
  | _ => JUndefined
  end.

Definition with_gateways (cfg : Config) (tw : Twit) (db : Pg) : Self :=
  {| config := cfg; twit := tw; pg := db; gnip := gnip_module;
     toLocaleString := fun t => t;
     native_get := sample_native_get;
     number_text := show_Z |}.

Definition sample_self : Self := with_gateways sample_config sample_twit sample_pg.

(** The same, with a twitter gateway that refuses every status. *)
Definition failing_twit_self : Self :=
  with_gateways sample_config {| updateStatus_error := fun _ => Some "503" |} sample_pg.

Definition with_twitter (cfg : Config) (enabled : bool) (entries : list (string * Setting))
    (url : option string) : Config :=
  {| pg_conString := pg_conString cfg;
     pg_table_all_users := pg_table_all_users cfg;
     pg_table_tweets := pg_table_tweets cfg;
     pg_table_invitees := pg_table_invitees cfg;
     pg_table_unconfirmed := pg_table_unconfirmed cfg;
     pg_table_nonspatial_tweet_reports := pg_table_nonspatial_tweet_reports cfg;
     pg_table_nonspatial_users := pg_table_nonspatial_users cfg;
     twitter_send_enabled := enabled;
     twitter_defaultLanguage := twitter_defaultLanguage cfg;
     twitter_entries := entries;
     gnip_streamTimeout := gnip_streamTimeout cfg;
     gnip_rules := gnip_rules cfg;
     gnip_steamUrl := url |}.


(** The sample configuration with sending disabled. *)
Definition dry_run_self : Self :=
  with_gateways (with_twitter sample_config false (twitter_entries sample_config)
                              (gnip_steamUrl sample_config))
                sample_twit sample_pg.

(** The configuration as [powertrack-config.js] has it: the url of the
    stream is set under [streamUrl], and [steamUrl], which the code reads,
    is not set. *)
Definition shipped_self : Self :=
  with_gateways (with_twitter sample_config true (twitter_entries sample_config) None)
                sample_twit sample_pg.

Definition sample_tweet (tags : list string) (g : option Geo) : TweetActivity :=
  {| actor_preferredUsername := "alice";
     body := "flood in my street";
     postedTime := "2015-01-01T00:00:00.000Z";
     twitter_lang := "en";
     geo := g;
     entities_hashtags := [];
     entities_urls := [];
     entities_user_mentions := [];
     gnip_matching_rules := map (fun t => {| tag := Some t |}) tags;
     activity_json := "{}" |}.


(** The closure variables once the rules are pushed and the stream is
    ready. *)
Definition ready_conn : Conn :=
  {| streamReconnectTimeout := Num 1;
     reconnectTimeoutHandle := None;
     req := true;
     timers := [];
     next_handle := 0 |}.

Definition chennai : Geo := {| coordinates := Some ["13.08"; "80.27"] |}.

(** ** Measures on traces *)

(** The sum of a weight over a trace. *)
Fixpoint total (w : Effect -> Z) (tr : list Effect) : Z :=
  match tr with
  | [] => 0%Z
  | e :: r => (w e + total w r)%Z
  end.

(** The calls of [done] during a trace. *)
Fixpoint dones (tr : list Effect) : nat :=
  match tr with
  | [] => 0
  | PgDone :: r => S (dones r)
  | _ :: r => dones r
  end.

(** Clients checked out of the pool and not yet released. *)
Definition pool_weight (e : Effect) : Z :=
  match e with
  | PgConnect _ => 1%Z
  | PgDone => (-1)%Z
  | _ => 0%Z
  end.

Definition status_weight (e : Effect) : Z :=
  match e with
  | UpdateStatus _ => 1%Z
  | _ => 0%Z
  end.

(** Statuses other than [s0]. *)
Definition other_status_weight (s0 : string) (e : Effect) : Z :=
  match e with
  | UpdateStatus s => if String.eqb s s0 then 0%Z else 1%Z
  | _ => 0%Z
  end.

(** The status the branch [v] of [filter] sends, if it sends one. *)
Definition reply_status (self : Self) (t : TweetActivity) (v : Verdict) : option string :=
  match reply_code v with
  | Some code =>
      Some (status_text (actor_preferredUsername t) (resolve self code (twitter_lang t)))
  | None => None
  end.

(** Whatever the database holds, the weight of the trace of [m] lies
    between 0 and [b]. *)
Definition bounded (w : Effect -> Z) (b : Z) {A} (m : M A) : Prop :=
  forall db, (0 <= total w (out_trace (m db)) <= b)%Z.

(** The most the trace of the branch [v] can weigh: the weight of its reply,
    when sending is enabled. *)
Definition reply_weight (w : Effect -> Z) (self : Self) (t : TweetActivity) (v : Verdict) : Z :=
  if twitter_send_enabled (config self) then
    match reply_status self t v with
    | Some s => w (UpdateStatus s)
    | None => 0%Z
    end
  else 0%Z.

(** Effects that stay inside the process and its connection pool: neither a
    statement sent to the database nor a status sent to twitter. *)
Definition local_effect (e : Effect) : bool :=
  match e with
  | UpdateStatus _ | ClientQuery _ => false
  | _ => true
  end.

(** [m] leaves the table of all users as it was and has local effects
    only. *)
Definition inert {A} (m : M A) : Prop :=
  forall db, out_db (m db) = db /\ forallb local_effect (out_trace (m db)) = true.

(** The calls of [stream.start] during a trace. *)
Fixpoint starts (tr : list Effect) : nat :=
  match tr with
  | [] => 0
  | StreamStart :: r => S (starts r)
  | _ :: r => starts r
  end.

Definition start_weight (e : Effect) : Z :=
  match e with
  | StreamStart => 1%Z
  | _ => 0%Z
  end.

(** The reconnect timers queued at the end of a turn. *)
Definition pending (r : Res Proc) : nat :=
  match r with
  | Ok p => length (timers (conn p))
  | Throw _ => 0
  end.

(** The times the stream dropped a request of its own accord, inside
    [stream.start()], and reported the end of it. *)
Fixpoint aborts (tr : list Effect) : nat :=
  match tr with
  | [] => 0
  | ReqAbort :: r => S (aborts r)
  | _ :: r => aborts r
  end.

(** The signals after which the code may start the stream: a successful
    rules push, and every report of a broken session. *)
Definition permits (s : Signal) : nat :=
  match s with
  | RulesAnswer None => 1
  | StreamError _ | StreamEnd | ReqTimeout => 1
  | _ => 0
  end.

(** * Properties *)

(** ** Tags and flags *)

Lemma indexOf_prefix (t p : string) :
  (indexOf t p =? 0)%Z = String.prefix p t.
Proof.
  unfold indexOf.
  destruct (String.prefix p t) eqn:Hp.
  - destruct t as [|b t'].
    + destruct p; simpl in *; [reflexivity | discriminate].
    + cbn [index]. rewrite Hp. reflexivity.
  - destruct (index 0 p t) as [n|] eqn:Hi; [|reflexivity].
    destruct n as [|n]; [|reflexivity].
    apply index_correct1 in Hi. apply prefix_correct in Hi. congruence.
Qed.

Lemma visit_rule_flags (f : Flags) (rule : Rule) :
  geoInBoundingBox (visit_rule f rule) = geoInBoundingBox f || tagged "geo" rule /\
  addressed (visit_rule f rule) = addressed f || tagged "addressed" rule /\
  locationMatch (visit_rule f rule) = locationMatch f || tagged "location" rule.
Proof.
  unfold visit_rule, tagged.
  destruct (tag rule) as [t|]; [|now rewrite !orb_false_r].
  destruct (truthy t) eqn:Ht.
  - cbn [geoInBoundingBox addressed locationMatch].
    rewrite !indexOf_prefix.
    repeat split;
      match goal with |- context [String.prefix ?p t] => destruct (String.prefix p t) end;
      now rewrite ?orb_true_r, ?orb_false_r.
  - unfold truthy in Ht. apply negb_false_iff, String.eqb_eq in Ht. subst t.
    cbn. now rewrite !orb_false_r.
Qed.

Lemma fold_visit_flags (rules : list Rule) : forall f,
  geoInBoundingBox (fold_left visit_rule rules f) = geoInBoundingBox f || existsb (tagged "geo") rules /\
  addressed (fold_left visit_rule rules f) = addressed f || existsb (tagged "addressed") rules /\
  locationMatch (fold_left visit_rule rules f) = locationMatch f || existsb (tagged "location") rules.
Proof.
  induction rules as [|r rules IH]; intro f; cbn [fold_left existsb].
  - now rewrite !orb_false_r.
  - destruct (IH (visit_rule f r)) as (Hg & Ha & Hl).
    destruct (visit_rule_flags f r) as (Hg' & Ha' & Hl').
    rewrite Hg, Ha, Hl, Hg', Ha', Hl', !orb_assoc. auto.
Qed.

Lemma categorize_flags (rules : list Rule) :
  geoInBoundingBox (categorize rules) = existsb (tagged "geo") rules /\
  addressed (categorize rules) = existsb (tagged "addressed") rules /\
  locationMatch (categorize rules) = existsb (tagged "location") rules.
Proof. exact (fold_visit_flags rules no_flags). Qed.

Lemma tagged_some (p : string) (rules : list Rule) :
  existsb (tagged p) rules = true <->
  exists rule t, In rule rules /\ tag rule = Some t /\ String.prefix p t = true.
Proof.
  rewrite existsb_exists. unfold tagged. split.
  - intros (rule & Hin & Ht). destruct (tag rule) as [t|] eqn:E; [|discriminate].
    now exists rule, t.
  - intros (rule & t & Hin & E & Ht). exists rule. now rewrite E.
Qed.

(** ** The classifier *)

(** The line a branch of [filter] logs first. *)
Lemma action_first_line (self : Self) (t : TweetActivity) (cats : string) (v : Verdict) (db : Db) :
  nth_error (out_trace ((prelude t ;; action self t cats v) db)) 2 =
  Some (match v with
        | Confirmed => Log verbose "filter: +BOUNDINGBOX +ADDRESSED = confirmed report"
        | AskForGeo => Log verbose "filter: -BOUNDINGBOX -GEO +ADDRESSED +LOCATION = ask user for geo"
        | Unconfirmed => Log verbose "filter: +BOUNDINGBOX -ADDRESSED = unconfirmed report, ask user to participate"
        | Invite => Log verbose "filter: -BOUNDINGBOX -GEO -ADDRESSED +LOCATION = ask user to participate"
        | Unmatched => Log warn ("filter: Tweet did not match category actions: " ++ cats)
        end).
Proof.
  destruct v; unfold action, prelude, bind, logger, emit; cbn [out_res out_db out_trace app nth_error];
    reflexivity.
Qed.

Lemma first_row_total (f : Flags) (g : bool) : exists v, first_row f g = Some v.
Proof.
  unfold first_row, priority_table. cbn [find row_holds].
  destruct (geoInBoundingBox f), (addressed f), (locationMatch f), g;
    cbn [andb negb]; eexists; reflexivity.
Qed.

(** [filter] runs the actions of the first row that holds. *)
Lemma filter_action (self : Self) (t : TweetActivity) :
  exists v,
    first_row (categorize (gnip_matching_rules t)) (hasGeo t) = Some v /\
    filter self t =
      (prelude t ;;
       action self t (tweetCategorizations (categorize (gnip_matching_rules t)) (hasGeo t)) v).
Proof.
  unfold filter, first_row, priority_table. cbn [find row_holds].
  destruct (geoInBoundingBox _), (addressed _), (locationMatch _), (hasGeo t);
    cbn [andb negb]; eexists; split; reflexivity.
Qed.

Lemma first_row_is_first (f : Flags) (g : bool) (v : Verdict) :
  first_row f g = Some v ->
  exists before after,
    priority_table = (before ++ v :: after)%list /\
    forallb (fun w => negb (row_holds f g w)) before = true /\
    row_holds f g v = true.
Proof.
  unfold first_row. generalize priority_table as l.
  induction l as [|w l IH]; cbn [find]; [discriminate|].
  destruct (row_holds f g w) eqn:E.
  - intros [= <-]. now exists [], l.
  - intros H. destruct (IH H) as (before & after & -> & Hb & Hv).
    exists (w :: before), after. cbn. now rewrite E.
Qed.

(** C1. For every incoming tweet, [filter] takes exactly one of the five
    branches (Confirmed, AskForGeo, Unconfirmed, Invite, Unmatched): the
    first row of the priority table, read top to bottom, whose condition
    holds.  The facts the rows read are: geoInBoundingBox iff some matching
    rule has a tag starting with "geo", addressed iff some tag starts with
    "addressed", locationMatch iff some tag starts with "location", hasGeo
    iff the tweet carries geo coordinates.  The table is total: every
    combination of the four facts selects a row. *)
Theorem filter_first_row (self : Self) (t : TweetActivity) :
  let f := categorize (gnip_matching_rules t) in
  let g := hasGeo t in
  let cats := tweetCategorizations f g in
  (geoInBoundingBox f = true <->
     exists rule tg, In rule (gnip_matching_rules t) /\ tag rule = Some tg /\ String.prefix "geo" tg = true) /\
  (addressed f = true <->
     exists rule tg, In rule (gnip_matching_rules t) /\ tag rule = Some tg /\ String.prefix "addressed" tg = true) /\
  (locationMatch f = true <->
     exists rule tg, In rule (gnip_matching_rules t) /\ tag rule = Some tg /\ String.prefix "location" tg = true) /\
  (g = true <-> exists gg c, geo t = Some gg /\ coordinates gg = Some c) /\
  (forall f' g', exists v', first_row f' g' = Some v') /\
  exists v,
    first_row f g = Some v /\
    (exists before after,
        priority_table = (before ++ v :: after)%list /\
        forallb (fun w => negb (row_holds f g w)) before = true /\
        row_holds f g v = true) /\
    filter self t = (prelude t ;; action self t cats v) /\
    (forall w, filter self t = (prelude t ;; action self t cats w) -> w = v).
Proof.
  intros f g cats.
  destruct (categorize_flags (gnip_matching_rules t)) as (Hg & Ha & Hl).
  split; [subst f; rewrite Hg; apply tagged_some|].
  split; [subst f; rewrite Ha; apply tagged_some|].
  split; [subst f; rewrite Hl; apply tagged_some|].
  split.
  { subst g. unfold hasGeo. destruct (geo t) as [gg|].
    - destruct (coordinates gg) as [c|] eqn:E.
      + split; [intros _; now exists gg, c | reflexivity].
      + split; [discriminate | intros (gg' & c & H1 & H2); congruence].
    - split; [discriminate | intros (gg' & c & H1 & H2); discriminate]. }
  split; [exact first_row_total|].
  assert (Huniq : forall v w,
            filter self t = (prelude t ;; action self t cats v) ->
            filter self t = (prelude t ;; action self t cats w) -> w = v).
  { intros v w Hv Hw. rewrite Hv in Hw.
    pose proof (action_first_line self t cats v []) as L1.
    pose proof (action_first_line self t cats w []) as L2.
    rewrite Hw in L1. rewrite L1 in L2.
    destruct v, w; try reflexivity; cbn in L2; discriminate L2. }
  destruct (filter_action self t) as (v & Hf & Heq). fold f g cats in Hf, Heq.
  pose proof (first_row_is_first f g v Hf) as Hfirst.
  exists v. repeat split; try assumption.
  intros w Hw. exact (Huniq v w Heq Hw).
Qed.

(** ** The gateways *)

(** The three ways a [dbQuery] can go. *)
Lemma dbQuery_connect_error (self : Self) (q : Query) success (db : Db) (err : string) :
  connect_error (pg self) q = Some err ->
  dbQuery self q success db =
  mkOut [Log debug ("dbQuery: executing query: " ++ stringify q); PgConnect q;
         Log error ("dbQuery: " ++ stringify q ++ ", " ++ err); PgDone] db (Ok tt).
Proof. intros H. unfold dbQuery. rewrite H. reflexivity. Qed.

Lemma dbQuery_query_error (self : Self) (q : Query) success (db : Db) (err : string) :
  connect_error (pg self) q = None ->
  query_error (pg self) q = Some err ->
  dbQuery self q success db =
  mkOut [Log debug ("dbQuery: executing query: " ++ stringify q); PgConnect q; ClientQuery q;
         Log error ("dbQuery: " ++ stringify q ++ ", " ++ err); PgDone] db (Ok tt).
Proof. intros H1 H2. unfold dbQuery. rewrite H1, H2. reflexivity. Qed.

Lemma dbQuery_success (self : Self) (q : Query) (f : list string -> M unit) (db : Db) :
  connect_error (pg self) q = None ->
  query_error (pg self) q = None ->
  dbQuery self q (Some f) db =
  let o := try_catch (f (fst (run_query self q db))) callback_failed (snd (run_query self q db)) in
  mkOut ([Log debug ("dbQuery: executing query: " ++ stringify q); PgConnect q; ClientQuery q;
          PgDone; Log debug ("dbQuery: success: " ++ stringify q)] ++ out_trace o)%list
        (out_db o) (out_res o).
Proof. intros H1 H2. unfold dbQuery. rewrite H1, H2. reflexivity. Qed.

Lemma try_catch_logged (m : M unit) (db : Db) :
  out_res (try_catch m callback_failed db) = Ok tt.
Proof.
  unfold try_catch. destruct (out_res (m db)) as [[]|e] eqn:E; [exact E | reflexivity].
Qed.

Lemma try_catch_ok (m : M unit) (h : Exn -> M unit) (db : Db) :
  out_res (m db) = Ok tt -> try_catch m h db = m db.
Proof. intros H. unfold try_catch. now rewrite H. Qed.

(** No exception leaves [dbQuery]. *)
Lemma dbQuery_returns (self : Self) (q : Query) success (db : Db) :
  out_res (dbQuery self q success db) = Ok tt.
Proof.
  destruct (connect_error (pg self) q) as [err|] eqn:H1.
  - now rewrite (dbQuery_connect_error self q success db err H1).
  - destruct (query_error (pg self) q) as [err|] eqn:H2.
    + now rewrite (dbQuery_query_error self q success db err H1 H2).
    + destruct success as [f|].
      * rewrite (dbQuery_success self q f db H1 H2). cbn [out_res]. apply try_catch_logged.
      * unfold dbQuery. rewrite H1, H2. reflexivity.
Qed.

(** ** The new-user check *)

Lemma run_query_user (self : Self) (user : string) (db : Db) :
  run_query self (user_query self user) db =
  (List.filter (String.eqb (md5 (pg self) user)) db, db).
Proof. unfold run_query, user_query. cbn [text values]. now rewrite String.eqb_refl. Qed.

Lemma filter_hash_nil (h : string) (db : Db) :
  List.filter (String.eqb h) db = [] <-> ~ In h db.
Proof.
  induction db as [|x db IH]; cbn [List.filter].
  - split; [intros _ []|reflexivity].
  - destruct (String.eqb h x) eqn:E.
    + apply String.eqb_eq in E. subst x. split; [discriminate | intros H; destruct H; now left].
    + apply String.eqb_neq in E. rewrite IH. cbn [In]. intuition congruence.
Qed.

(** Every way [ifNewUser] can go, by what the existence query returns. *)
Lemma ifNewUser_cases (self : Self) (user : string) (f : list string -> M unit) (db : Db) :
  ifNewUser self user f db =
  match existence_query self user db with
  | Some [] =>
      let o := try_catch (f []) callback_failed db in
      mkOut (answered (user_query self user) ++ out_trace o) (out_db o) (Ok tt)
  | Some (_ :: _) =>
      mkOut (answered (user_query self user) ++
             [Log debug "Not performing callback as user already exists"]) db (Ok tt)
  | None => dbQuery self (user_query self user) None db
  end.
Proof.
  unfold ifNewUser, existence_query.
  destruct (connect_error (pg self) (user_query self user)) as [e1|] eqn:H1.
  { now rewrite !(dbQuery_connect_error _ _ _ _ _ H1). }
  destruct (query_error (pg self) (user_query self user)) as [e2|] eqn:H2.
  { now rewrite !(dbQuery_query_error _ _ _ _ _ H1 H2). }
  rewrite (dbQuery_success _ _ _ _ H1 H2), run_query_user. cbn [fst snd].
  destruct (List.filter _ db) as [|r rows]; cbn [length Nat.eqb].
  - cbv zeta. now rewrite try_catch_logged.
  - reflexivity.
Qed.

(** C8. The new-user check is idempotent and raises nothing.  The callback
    given to [ifNewUser] runs exactly when the existence query comes back
    with zero rows; when the query comes back with rows, which it does
    exactly when the hash of the author is in the table of all users, the
    callback is skipped with one debug line and the call returns normally;
    when the query fails the callback is skipped too.  Two checks in a row
    for the same author, the first callback leaving the table as it was,
    both run their callbacks. *)
Theorem ifNewUser_idempotent (self : Self) (user : string)
    (f1 f2 : list string -> M unit) (db : Db) :
  let q := user_query self user in
  ifNewUser self user f1 db =
    match existence_query self user db with
    | Some [] =>
        let o := try_catch (f1 []) callback_failed db in
        mkOut (answered q ++ out_trace o) (out_db o) (Ok tt)
    | Some (_ :: _) =>
        mkOut (answered q ++ [Log debug "Not performing callback as user already exists"]) db (Ok tt)
    | None => dbQuery self q None db
    end /\
  (forall rows, existence_query self user db = Some rows ->
     (rows <> [] <-> In (md5 (pg self) user) db)) /\
  (existence_query self user db = Some [] ->
   out_db (try_catch (f1 []) callback_failed db) = db ->
   (ifNewUser self user f1 ;; ifNewUser self user f2) db =
     let o1 := try_catch (f1 []) callback_failed db in
     let o2 := try_catch (f2 []) callback_failed db in
     mkOut (answered q ++ out_trace o1 ++ answered q ++ out_trace o2) (out_db o2) (Ok tt)).
Proof.
  intro q. split; [apply ifNewUser_cases|]. split.
  - intros rows H. unfold existence_query in H.
    destruct (connect_error _ _); [discriminate|].
    destruct (query_error _ _); [discriminate|].
    injection H as <-. rewrite filter_hash_nil. split.
    + intros H. destruct (in_dec string_dec (md5 (pg self) user) db); [assumption|contradiction].
    + intros H H'. contradiction.
  - intros Hnew Hdb. unfold bind.
    rewrite (ifNewUser_cases self user f1 db), Hnew. cbn [out_res out_db out_trace].
    rewrite Hdb, (ifNewUser_cases self user f2 db), Hnew. cbn [out_res out_db out_trace].
    subst q. now rewrite <- !app_assoc.
Qed.

(** On a table that does not hold alice, checked twice with callbacks that
    only log: both callbacks run. *)
Lemma ifNewUser_idempotent_witness :
  out_trace ((ifNewUser sample_self "alice" (fun _ => logger info "first") ;;
              ifNewUser sample_self "alice" (fun _ => logger info "second")) ["md5:bob"]) =
  (answered (user_query sample_self "alice") ++ [Log info "first"] ++
   answered (user_query sample_self "alice") ++ [Log info "second"])%list.
Proof.
  rewrite (proj2 (proj2 (ifNewUser_idempotent sample_self "alice"
             (fun _ => logger info "first") (fun _ => logger info "second") ["md5:bob"]))).
  - reflexivity.
  - reflexivity.
  - reflexivity.
Defined.

(** ** Replies *)

Lemma try_catch_emit (e : Effect) (m : M unit) (h : Exn -> M unit) (db : Db) :
  try_catch (emit e ;; m) h db =
  let o := try_catch m h db in mkOut (e :: out_trace o) (out_db o) (out_res o).
Proof.
  unfold try_catch, bind, emit. cbn [out_res out_db out_trace app].
  destruct (m db) as [tr db' [a|x]]; reflexivity.
Qed.

Lemma try_catch_ret {A} (a : A) (k : A -> M unit) (h : Exn -> M unit) (db : Db) :
  try_catch (x <- ret a ;; k x) h db = try_catch (k a) h db.
Proof.
  unfold try_catch, bind, ret. cbn [out_res out_db out_trace app].
  destruct (k a db) as [tr db' [u|x]]; reflexivity.
Qed.

(** Every way [sendReplyTweet] can go. *)
Lemma sendReplyTweet_cases (self : Self) (user : string) (msg : JsVal)
    (cb : option (M unit)) (db : Db) :
  sendReplyTweet self user msg cb db =
  match existence_query self user db with
  | Some [] =>
      match to_text msg with
      | Some _ =>
          if twitter_send_enabled (config self) then
            match updateStatus_error (twit self) (status_text user msg) with
            | Some err =>
                mkOut (answered (user_query self user) ++
                       [UpdateStatus (status_text user msg); Log error ("Tweeting failed: " ++ err)])
                      db (Ok tt)
            | None =>
                let o := try_catch (run_callback cb) callback_failed db in
                mkOut (answered (user_query self user) ++ UpdateStatus (status_text user msg) :: out_trace o)
                      (out_db o) (Ok tt)
            end
          else
            let o := try_catch (run_callback cb) callback_failed db in
            mkOut (answered (user_query self user) ++
                   Log info test_mode_line :: Log info (status_text user msg) :: out_trace o)
                  (out_db o) (Ok tt)
      | None =>
          mkOut (answered (user_query self user) ++
                 (if twitter_send_enabled (config self) then [] else [Log info test_mode_line]) ++
                 [cannot_convert_line])
                db (Ok tt)
      end
  | Some (_ :: _) =>
      mkOut (answered (user_query self user) ++
             [Log debug "Not performing callback as user already exists"]) db (Ok tt)
  | None => dbQuery self (user_query self user) None db
  end.
Proof.
  unfold sendReplyTweet. rewrite ifNewUser_cases.
  destruct (existence_query self user db) as [[|r rows]|]; try reflexivity.
  cbv zeta. unfold reply, concat_status.
  destruct (to_text msg) as [tx|].
  - destruct (twitter_send_enabled (config self)).
    + rewrite try_catch_ret, try_catch_emit. cbv zeta.
      destruct (updateStatus_error (twit self) (status_text user msg)) as [err|]; reflexivity.
    + unfold logger. rewrite try_catch_emit, try_catch_ret, try_catch_emit. reflexivity.
  - destruct (twitter_send_enabled (config self)); reflexivity.
Qed.

(** The trace of an existence query that fails. *)
Lemma failed_query_trace (self : Self) (user : string) (db : Db) :
  existence_query self user db = None ->
  exists err,
    dbQuery self (user_query self user) None db =
      mkOut [Log debug ("dbQuery: executing query: " ++ stringify (user_query self user));
             PgConnect (user_query self user);
             Log error ("dbQuery: " ++ stringify (user_query self user) ++ ", " ++ err); PgDone]
            db (Ok tt) \/
    dbQuery self (user_query self user) None db =
      mkOut [Log debug ("dbQuery: executing query: " ++ stringify (user_query self user));
             PgConnect (user_query self user); ClientQuery (user_query self user);
             Log error ("dbQuery: " ++ stringify (user_query self user) ++ ", " ++ err); PgDone]
            db (Ok tt).
Proof.
  unfold existence_query.
  destruct (connect_error _ _) as [e1|] eqn:H1.
  - intros _. exists e1. left. now apply dbQuery_connect_error.
  - destruct (query_error _ _) as [e2|] eqn:H2; [|discriminate].
    intros _. exists e2. right. now apply dbQuery_query_error.
Qed.

Lemma existence_query_known (self : Self) (user : string) (db : Db) :
  In (md5 (pg self) user) db -> existence_query self user db <> Some [].
Proof.
  unfold existence_query. intros Hin.
  destruct (connect_error _ _); [discriminate|].
  destruct (query_error _ _); [discriminate|].
  intros [= H]. apply filter_hash_nil in H. contradiction.
Qed.

Lemma invitee_query_not_user_query (self : Self) (t : TweetActivity) (user : string) :
  invitee_query self t <> user_query self user.
Proof. unfold invitee_query, user_query, select_user_text. intros [= H]. Qed.

(** C3. [sendReplyTweet] is gated by the new-user check.  For a recipient
    whose hash is already in the table of all users no tweet is sent, no
    test-mode line is logged and the success callback is not entered: the
    call does nothing but the existence query, so no invitee insert can
    follow from it either.  A reply, or the invitee record that depends on
    it, is only produced for an author who is not yet in that table. *)
Theorem sendReplyTweet_gated (self : Self) (user : string) (msg : JsVal)
    (cb : option (M unit)) (t : TweetActivity) (db : Db) :
  In (md5 (pg self) user) db ->
  sendReplyTweet self user msg cb db =
    match existence_query self user db with
    | Some _ =>
        mkOut (answered (user_query self user) ++
               [Log debug "Not performing callback as user already exists"]) db (Ok tt)
    | None => dbQuery self (user_query self user) None db
    end /\
  (forall s, ~ In (UpdateStatus s) (out_trace (sendReplyTweet self user msg cb db))) /\
  (forall s, ~ In (Log info s) (out_trace (sendReplyTweet self user msg cb db))) /\
  ~ In (PgConnect (invitee_query self t))
       (out_trace (sendReplyTweet self user msg (Some (insertInvitee self t)) db)).
Proof.
  intros Hin.
  pose proof (existence_query_known self user db Hin) as Hk.
  pose proof (invitee_query_not_user_query self t user) as Hq.
  rewrite !sendReplyTweet_cases.
  destruct (existence_query self user db) as [[|r rows]|] eqn:E.
  - contradiction.
  - unfold answered. cbn [out_trace app In].
    repeat split; try intros s; intuition (try discriminate; try congruence).
  - destruct (failed_query_trace self user db E) as (err & [-> | ->]);
      cbn [out_trace In];
      repeat split; try intros s; intuition (try discriminate; try congruence).
Qed.

(** Alice is in the table already: the reply to her stops at the existence
    query. *)
Lemma sendReplyTweet_gated_witness :
  out_trace (sendReplyTweet sample_self "alice" (JStr "hello")
               (Some (insertInvitee sample_self (sample_tweet ["location-chennai"] None)))
               ["md5:alice"]) =
  (answered (user_query sample_self "alice") ++
   [Log debug "Not performing callback as user already exists"])%list.
Proof.
  rewrite (proj1 (sendReplyTweet_gated sample_self "alice" (JStr "hello")
                    (Some (insertInvitee sample_self (sample_tweet ["location-chennai"] None)))
                    (sample_tweet ["location-chennai"] None) ["md5:alice"]
                    (or_introl eq_refl))).
  reflexivity.
Defined.

(** ** Traces *)

Lemma bind_out {A B} (m : M A) (k : A -> M B) (db db' : Db) (tr : list Effect) (a : A) :
  m db = mkOut tr db' (Ok a) ->
  (x <- m ;; k x) db =
  let o := k a db' in mkOut (tr ++ out_trace o) (out_db o) (out_res o).
Proof. intros H. unfold bind. rewrite H. reflexivity. Qed.

Lemma bind_throw {A B} (m : M A) (k : A -> M B) (db db' : Db) (tr : list Effect) (e : Exn) :
  m db = mkOut tr db' (Throw e) ->
  (x <- m ;; k x) db = mkOut tr db' (Throw e).
Proof. intros H. unfold bind. rewrite H. reflexivity. Qed.

Lemma getMessage_resolve (self : Self) (code lang : string) (db : Db) :
  getMessage self code lang db =
  mkOut (match resolve self code lang with
         | JNull => [unresolved_line code lang]
         | _ => []
         end) db (Ok (resolve self code lang)).
Proof.
  unfold getMessage, resolve.
  destruct (js_truthy (js_get self (twitter_object (config self)) code)); [|reflexivity].
  destruct (js_truthy (js_get self _ lang)) eqn:E1.
  - destruct (js_get self _ lang) as [[]|]; try reflexivity; discriminate E1.
  - destruct (js_truthy (js_get self _ (twitter_defaultLanguage (config self)))) eqn:E2;
      [|reflexivity].
    destruct (js_get self _ (twitter_defaultLanguage (config self))) as [[]|];
      try reflexivity; discriminate E2.
Qed.

(** [getMessage] leaves nothing in the trace but its warning. *)
Lemma getMessage_logs (self : Self) (code lang : string) (x : Effect) :
  In x (match resolve self code lang with
        | JNull => [unresolved_line code lang]
        | _ => []
        end) -> x = unresolved_line code lang.
Proof.
  destruct (resolve self code lang) as [[]|]; cbn [In]; intuition.
Qed.

Lemma split_after {A} (x : A) (l1 l2 pre post : list A) :
  ~ In x l1 -> (l1 ++ l2 = pre ++ x :: post)%list ->
  exists pre', pre = (l1 ++ pre')%list /\ l2 = (pre' ++ x :: post)%list.
Proof.
  revert pre. induction l1 as [|y l1 IH]; intros pre Hn H.
  - now exists pre.
  - destruct pre as [|z pre]; cbn in H; injection H as -> H.
    + exfalso. apply Hn. now left.
    + destruct (IH pre) as (pre' & -> & ->); [intros Hx; apply Hn; now right | assumption |].
      now exists pre'.
Qed.

Lemma dispatched_mono (self : Self) (l1 l2 l3 : list Effect) :
  dispatched self l2 -> dispatched self (l1 ++ l2 ++ l3).
Proof.
  intros [(He & s & Hin & Hs) | (He & Hin)]; [left | right]; split; try assumption.
  - exists s. split; [|assumption]. apply in_or_app. right. apply in_or_app. now left.
  - apply in_or_app. right. apply in_or_app. now left.
Qed.

Lemma after_dispatch_absent (self : Self) (x : Effect) (tr : list Effect) :
  ~ In x tr -> after_dispatch self x tr.
Proof. intros Hn pre post ->. exfalso. apply Hn. apply in_elt. Qed.

Lemma after_dispatch_app (self : Self) (x : Effect) (l1 l2 : list Effect) :
  ~ In x l1 -> after_dispatch self x l2 -> after_dispatch self x (l1 ++ l2).
Proof.
  intros Hn H pre post E.
  destruct (split_after x l1 l2 pre post Hn E) as (pre' & -> & E').
  rewrite <- (app_nil_r pre'). apply dispatched_mono. exact (H pre' post E').
Qed.

Lemma after_dispatch_done (self : Self) (x : Effect) (l1 l2 : list Effect) :
  ~ In x l1 -> dispatched self l1 -> after_dispatch self x (l1 ++ l2).
Proof.
  intros Hn Hd pre post E.
  destruct (split_after x l1 l2 pre post Hn E) as (pre' & -> & E').
  apply (dispatched_mono self [] l1 pre'). exact Hd.
Qed.

Lemma sendReplyTweet_after_dispatch (self : Self) (user : string) (msg : JsVal)
    (t : TweetActivity) (db : Db) :
  after_dispatch self (PgConnect (invitee_query self t))
    (out_trace (sendReplyTweet self user msg (Some (insertInvitee self t)) db)).
Proof.
  pose proof (invitee_query_not_user_query self t user) as Hq.
  assert (Hans : ~ In (PgConnect (invitee_query self t)) (answered (user_query self user))).
  { unfold answered. cbn [In]. intuition (try discriminate; congruence). }
  rewrite sendReplyTweet_cases.
  destruct (existence_query self user db) as [[|r rows]|] eqn:E.
  - destruct (to_text msg) as [tx|] eqn:Ex; cycle 1.
    { apply after_dispatch_absent. cbn [out_trace]. intros H.
      apply in_app_or in H. destruct H as [H|H]; [now apply Hans|].
      unfold cannot_convert_line in H.
      destruct (twitter_send_enabled (config self)); cbn [In app] in H; intuition discriminate. }
    destruct (twitter_send_enabled (config self)) eqn:En.
    + destruct (updateStatus_error (twit self) (status_text user msg)) as [err|] eqn:Es.
      * apply after_dispatch_absent. cbn [out_trace]. intros H.
        apply in_app_or in H. destruct H as [H|H]; [now apply Hans|].
        cbn [In] in H. intuition discriminate.
      * cbv zeta. cbn [out_trace].
        change (UpdateStatus (status_text user msg) :: ?l)
          with ([UpdateStatus (status_text user msg)] ++ l)%list.
        rewrite app_assoc. apply after_dispatch_done.
        -- intros H. apply in_app_or in H. destruct H as [H|H]; [now apply Hans|].
           cbn [In] in H. intuition discriminate.
        -- left. split; [assumption|]. exists (status_text user msg). split; [|assumption].
           apply in_or_app. right. now left.
    + cbv zeta. cbn [out_trace].
      change (Log info test_mode_line :: Log info (status_text user msg) :: ?l)
        with ([Log info test_mode_line; Log info (status_text user msg)] ++ l)%list.
      rewrite app_assoc. apply after_dispatch_done.
      * intros H. apply in_app_or in H. destruct H as [H|H]; [now apply Hans|].
        cbn [In] in H. intuition discriminate.
      * right. split; [assumption|]. apply in_or_app. right. now left.
  - apply after_dispatch_absent. cbn [out_trace]. intros H.
    apply in_app_or in H. destruct H as [H|H]; [now apply Hans|].
    cbn [In] in H. intuition discriminate.
  - apply after_dispatch_absent.
    destruct (failed_query_trace self user db E) as (err & [-> | ->]);
      cbn [out_trace In]; intuition (try discriminate; congruence).
Qed.

(** What a [dbQuery] whose callback only logs leaves in the trace. *)
Lemma dbQuery_logging_trace (self : Self) (q : Query) (line : string) (db : Db) (x : Effect) :
  In x (out_trace (dbQuery self q (Some (fun _ => logger info line)) db)) ->
  x = PgConnect q \/ x = ClientQuery q \/ x = PgDone \/ exists l s, x = Log l s.
Proof.
  destruct (connect_error (pg self) q) as [e1|] eqn:H1.
  { rewrite (dbQuery_connect_error _ _ _ _ _ H1). cbn [out_trace In]. intuition eauto. }
  destruct (query_error (pg self) q) as [e2|] eqn:H2.
  { rewrite (dbQuery_query_error _ _ _ _ _ H1 H2). cbn [out_trace In]. intuition eauto. }
  rewrite (dbQuery_success _ _ _ _ H1 H2). cbn. intuition eauto.
Qed.

(** [insertUnConfirmed] issues no invitee insert and sends nothing. *)
Lemma insertUnConfirmed_quiet (self : Self) (t : TweetActivity) (db : Db) :
  ~ In (PgConnect (invitee_query self t)) (out_trace (insertUnConfirmed self t db)) /\
  forall s, ~ In (UpdateStatus s) (out_trace (insertUnConfirmed self t db)).
Proof.
  unfold insertUnConfirmed, geo_coordinates.
  destruct (geo t) as [g|]; [destruct (coordinates g) as [c|]|]; try (cbn; tauto).
  rewrite (bind_out _ _ db db [] c eq_refl). cbn [out_trace app].
  split; [|intros s]; intros H; apply dbQuery_logging_trace in H;
    destruct H as [H | [H | [H | (l & s' & H)]]]; discriminate.
Qed.

(** [dbQuery] asks the pool for a client whatever happens next. *)
Lemma dbQuery_connects (self : Self) (q : Query) success (db : Db) :
  In (PgConnect q) (out_trace (dbQuery self q success db)).
Proof.
  destruct (connect_error (pg self) q) as [err|] eqn:H1.
  - rewrite (dbQuery_connect_error self q success db err H1). cbn. auto.
  - destruct (query_error (pg self) q) as [err|] eqn:H2.
    + rewrite (dbQuery_query_error self q success db err H1 H2). cbn. auto.
    + destruct success as [f|].
      * rewrite (dbQuery_success self q f db H1 H2). cbn. auto.
      * unfold dbQuery. rewrite H1, H2. cbn. auto.
Qed.

(** The trace of [filter] on an Unconfirmed or Invite tweet: a part with no
    invitee insert and no status in it, then, unless the unconfirmed insert
    threw, the trace of the one [sendReplyTweet]. *)
Lemma filter_reply_trace (self : Self) (t : TweetActivity) (db : Db) (v : Verdict) :
  first_row (categorize (gnip_matching_rules t)) (hasGeo t) = Some v ->
  v = Unconfirmed \/ v = Invite ->
  exists P,
    ~ In (PgConnect (invitee_query self t)) P /\
    (forall s, ~ In (UpdateStatus s) P) /\
    ((exists e db1, filter self t db = mkOut P db1 (Throw e)) \/
     filter self t db =
       let o := sendReplyTweet self (actor_preferredUsername t)
                  (resolve self "invite_text" (twitter_lang t))
                  (Some (insertInvitee self t)) (store_at_reply self t v db) in
       mkOut (P ++ out_trace o) (out_db o) (out_res o)).
Proof.
  intros Hv Hcase.
  destruct (filter_action self t) as (v' & Hv' & ->).
  rewrite Hv in Hv'. injection Hv' as <-.
  rewrite (bind_out _ _ db db _ tt eq_refl). cbv zeta.
  destruct Hcase as [-> | ->]; unfold action, store_at_reply.
  - rewrite (bind_out _ _ db db _ tt eq_refl). cbv zeta. cbn [out_trace out_db out_res].
    destruct (insertUnConfirmed_quiet self t db) as (Hq & Hs).
    destruct (insertUnConfirmed self t db) as [tr1 db1 [[]|e]] eqn:E1; cbn [out_trace out_db] in *.
    + rewrite (bind_out _ _ db db1 tr1 tt E1). cbv zeta.
      rewrite (bind_out _ _ _ _ _ _ (getMessage_resolve self "invite_text" (twitter_lang t) db1)).
      cbv zeta. cbn [out_trace out_db out_res].
      eexists. split; [|split; [|right; rewrite !app_assoc; reflexivity]].
      * intros H. repeat (apply in_app_or in H; destruct H as [H|H]);
          try (cbn in H; intuition discriminate); try contradiction.
        apply getMessage_logs in H. discriminate H.
      * intros s H. repeat (apply in_app_or in H; destruct H as [H|H]);
          try (cbn in H; intuition discriminate); try (now apply (Hs s)).
        apply getMessage_logs in H. discriminate H.
    + rewrite (bind_throw _ _ db db1 tr1 e E1). cbn [out_trace out_db out_res].
      eexists. split; [|split; [|left; exists e, db1; rewrite !app_assoc; reflexivity]].
      * intros H. repeat (apply in_app_or in H; destruct H as [H|H]);
          try (cbn in H; intuition discriminate); try contradiction.
      * intros s H. repeat (apply in_app_or in H; destruct H as [H|H]);
          try (cbn in H; intuition discriminate); try (now apply (Hs s)).
  - rewrite (bind_out _ _ db db _ tt eq_refl). cbv zeta. cbn [out_trace out_db out_res].
    rewrite (bind_out _ _ _ _ _ _ (getMessage_resolve self "invite_text" (twitter_lang t) db)).
    cbv zeta. cbn [out_trace out_db out_res].
    eexists. split; [|split; [|right; rewrite !app_assoc; reflexivity]].
    + intros H. repeat (apply in_app_or in H; destruct H as [H|H]);
        try (cbn in H; intuition discriminate); try contradiction.
      apply getMessage_logs in H. discriminate H.
    + intros s H. repeat (apply in_app_or in H; destruct H as [H|H]);
        try (cbn in H; intuition discriminate).
      apply getMessage_logs in H. discriminate H.
Qed.

Lemma sendReplyTweet_refused (self : Self) (user : string) (msg : JsVal)
    (t : TweetActivity) (db : Db) (err : string) :
  twitter_send_enabled (config self) = true ->
  updateStatus_error (twit self) (status_text user msg) = Some err ->
  ~ In (PgConnect (invitee_query self t))
       (out_trace (sendReplyTweet self user msg (Some (insertInvitee self t)) db)).
Proof.
  intros En Es.
  pose proof (invitee_query_not_user_query self t user) as Hq.
  rewrite sendReplyTweet_cases, En, Es.
  destruct (existence_query self user db) as [[|r rows]|] eqn:E.
  - unfold answered, cannot_convert_line.
    destruct (to_text msg); cbn [out_trace app In]; intuition (try discriminate; congruence).
  - unfold answered. cbn [out_trace app In]. intuition (try discriminate; congruence).
  - destruct (failed_query_trace self user db E) as (e & [-> | ->]);
      cbn [out_trace In]; intuition (try discriminate; congruence).
Qed.

(** The reply to a new user, with a message that has a text, when the
    status is accepted or sending is disabled: the invitee insert is
    issued. *)
Lemma sendReplyTweet_invites (self : Self) (user : string) (msg : JsVal)
    (t : TweetActivity) (db : Db) :
  existence_query self user db = Some [] ->
  printable msg = true ->
  twitter_send_enabled (config self) = false \/
  updateStatus_error (twit self) (status_text user msg) = None ->
  In (PgConnect (invitee_query self t))
     (out_trace (sendReplyTweet self user msg (Some (insertInvitee self t)) db)).
Proof.
  intros E Hp Hcase. unfold printable in Hp.
  rewrite sendReplyTweet_cases, E.
  destruct (to_text msg) as [tx|]; [|discriminate].
  assert (Hcb : In (PgConnect (invitee_query self t))
                   (out_trace (try_catch (run_callback (Some (insertInvitee self t)))
                                         callback_failed db))).
  { cbn [run_callback]. rewrite try_catch_ok by apply dbQuery_returns. apply dbQuery_connects. }
  destruct (twitter_send_enabled (config self)).
  - destruct Hcase as [Hcase | ->]; [discriminate|].
    cbv zeta. cbn [out_trace]. apply in_or_app. right. now right.
  - cbv zeta. cbn [out_trace]. apply in_or_app. right. right. now right.
Qed.

(** In test mode the reply hands nothing to twitter and logs its two
    lines. *)
Lemma sendReplyTweet_test_mode (self : Self) (user : string) (msg : JsVal)
    (t : TweetActivity) (db : Db) :
  twitter_send_enabled (config self) = false ->
  (forall s, ~ In (UpdateStatus s)
               (out_trace (sendReplyTweet self user msg (Some (insertInvitee self t)) db))) /\
  (existence_query self user db = Some [] -> printable msg = true ->
   In (Log info test_mode_line)
      (out_trace (sendReplyTweet self user msg (Some (insertInvitee self t)) db)) /\
   In (Log info (status_text user msg))
      (out_trace (sendReplyTweet self user msg (Some (insertInvitee self t)) db))).
Proof.
  intros En. rewrite sendReplyTweet_cases, En. unfold printable.
  destruct (existence_query self user db) as [[|r rows]|] eqn:E.
  - destruct (to_text msg) as [tx|].
    + cbv zeta. cbn [out_trace run_callback].
      rewrite try_catch_ok by apply dbQuery_returns. split.
      * intros s H. apply in_app_or in H. destruct H as [H|H].
        { unfold answered in H. cbn [In] in H. intuition discriminate. }
        destruct H as [H|[H|H]]; try discriminate.
        apply dbQuery_logging_trace in H.
        destruct H as [H | [H | [H | (l & s' & H)]]]; discriminate.
      * intros _ _. split; apply in_or_app; right; [now left | right; now left].
    + split; [|discriminate]. intros s H. unfold answered, cannot_convert_line in H.
      cbn [out_trace app In] in H. intuition discriminate.
  - split; [|discriminate]. intros s H. unfold answered in H.
    cbn [out_trace app In] in H. intuition discriminate.
  - split; [|discriminate]. intros s.
    destruct (failed_query_trace self user db E) as (e & [-> | ->]);
      cbn [out_trace In]; intuition discriminate.
Qed.

(** C2. On a tweet sorted as Unconfirmed or Invite, an invitee insert is never
    issued unless a notification was dispatched before it in the trace: the
    callback of [sendReplyTweet] (which does the insert) is entered only
    after [updateStatus] reported no error; when it reports an error no
    invitee insert is issued at all.  The other way round, when [filter]
    returns, the author is new and the message has a text: an accepted
    status is followed by the invitee insert; and when sending is disabled
    nothing is handed to twitter, the two test-mode lines are logged in its
    place, and the callback still runs, so the invitee insert is issued all
    the same. *)
Theorem invitee_after_dispatch (self : Self) (t : TweetActivity) (db : Db) (v : Verdict) :
  first_row (categorize (gnip_matching_rules t)) (hasGeo t) = Some v ->
  v = Unconfirmed \/ v = Invite ->
  let x := PgConnect (invitee_query self t) in
  let user := actor_preferredUsername t in
  let msg := resolve self "invite_text" (twitter_lang t) in
  let trace := out_trace (filter self t db) in
  after_dispatch self x trace /\
  (forall err,
     twitter_send_enabled (config self) = true ->
     updateStatus_error (twit self) (status_text user msg) = Some err ->
     ~ In x trace) /\
  (out_res (filter self t db) = Ok tt ->
   existence_query self user (store_at_reply self t v db) = Some [] ->
   printable msg = true ->
   (twitter_send_enabled (config self) = true ->
    updateStatus_error (twit self) (status_text user msg) = None ->
    In (UpdateStatus (status_text user msg)) trace /\ In x trace) /\
   (twitter_send_enabled (config self) = false ->
    (forall s, ~ In (UpdateStatus s) trace) /\
    In (Log info test_mode_line) trace /\
    In (Log info (status_text user msg)) trace /\
    In x trace)) /\
  (forall user msg cb db',
     twitter_send_enabled (config self) = false ->
     existence_query self user db' = Some [] ->
     sendReplyTweet self user msg cb db' =
       match to_text msg with
       | Some _ =>
           let o := try_catch (run_callback cb) callback_failed db' in
           mkOut (answered (user_query self user) ++
                  Log info test_mode_line :: Log info (status_text user msg) :: out_trace o)
                 (out_db o) (Ok tt)
       | None =>
           mkOut (answered (user_query self user) ++ [Log info test_mode_line; cannot_convert_line])
                 db' (Ok tt)
       end).
Proof.
  intros Hv Hcase x user msg trace.
  assert (Hlast : forall user msg cb db',
     twitter_send_enabled (config self) = false ->
     existence_query self user db' = Some [] ->
     sendReplyTweet self user msg cb db' =
       match to_text msg with
       | Some _ =>
           let o := try_catch (run_callback cb) callback_failed db' in
           mkOut (answered (user_query self user) ++
                  Log info test_mode_line :: Log info (status_text user msg) :: out_trace o)
                 (out_db o) (Ok tt)
       | None =>
           mkOut (answered (user_query self user) ++ [Log info test_mode_line; cannot_convert_line])
                 db' (Ok tt)
       end).
  { intros user1 msg1 cb db1 En E. now rewrite sendReplyTweet_cases, E, En. }
  subst trace.
  destruct (filter_reply_trace self t db v Hv Hcase) as (P & HP & HS & [(e & db1 & ->) | ->]).
  - cbn [out_trace out_res].
    split; [now apply after_dispatch_absent|]. split; [intros; assumption|].
    split; [discriminate | exact Hlast].
  - cbv zeta. cbn [out_trace out_res].
    split; [apply after_dispatch_app; [assumption | apply sendReplyTweet_after_dispatch]|].
    split; [|split; [|exact Hlast]].
    + intros err En Es H. apply in_app_or in H. destruct H as [H|H]; [contradiction|].
      revert H. now apply (sendReplyTweet_refused self _ _ t _ err).
    + intros _ Ex Hp. split.
      * intros En Es. split; apply in_or_app; right.
        -- rewrite sendReplyTweet_cases. fold user msg. rewrite Ex. unfold printable in Hp.
           destruct (to_text msg); [|discriminate]. rewrite En, Es.
           cbv zeta. cbn [out_trace]. apply in_or_app. right. now left.
        -- apply sendReplyTweet_invites; auto.
      * intros En.
        destruct (sendReplyTweet_test_mode self user msg t (store_at_reply self t v db) En)
          as (Hno & Hlines).
        destruct (Hlines Ex Hp) as (H1 & H2).
        split; [|split; [|split]]; try (apply in_or_app; right; assumption).
        -- intros s H. apply in_app_or in H. destruct H as [H|H];
             [now apply (HS s) | now apply (Hno s)].
        -- apply in_or_app. right. apply sendReplyTweet_invites; auto.
Qed.

(** A tweet tagged "location-chennai" only, without coordinates, is an Invite.
    When the twitter gateway refuses the status, no invitee insert is issued;
    when sending is disabled, nothing is handed to twitter and the invitee
    insert is issued. *)
Lemma invitee_after_dispatch_witness :
  ~ In (PgConnect (invitee_query failing_twit_self (sample_tweet ["location-chennai"] None)))
       (out_trace (filter failing_twit_self (sample_tweet ["location-chennai"] None) [])) /\
  ((forall s, ~ In (UpdateStatus s)
                 (out_trace (filter dry_run_self (sample_tweet ["location-chennai"] None) []))) /\
   In (PgConnect (invitee_query dry_run_self (sample_tweet ["location-chennai"] None)))
      (out_trace (filter dry_run_self (sample_tweet ["location-chennai"] None) []))).
Proof.
  split.
  - exact (proj1 (proj2 (invitee_after_dispatch failing_twit_self
                           (sample_tweet ["location-chennai"] None) [] Invite
                           eq_refl (or_intror eq_refl)))
                 "503" eq_refl eq_refl).
  - pose proof (proj2 (proj1 (proj2 (proj2 (invitee_after_dispatch dry_run_self
                           (sample_tweet ["location-chennai"] None) [] Invite
                           eq_refl (or_intror eq_refl))))
                 eq_refl eq_refl eq_refl) eq_refl) as H.
    split; [exact (proj1 H) | exact (proj2 (proj2 (proj2 H)))].
Defined.

(** ** Message texts *)








Lemma insertNonSpatial_returns (self : Self) (t : TweetActivity) (db : Db) :
  out_res (insertNonSpatial self t db) = Ok tt.
Proof.
  unfold insertNonSpatial, ifNewUser, bind.
  rewrite dbQuery_returns. cbn [out_res]. apply dbQuery_returns.
Qed.






(** ** Confirmed reports *)

Lemma confirmed_row (f : Flags) (g : bool) :
  first_row f g = Some Confirmed <-> geoInBoundingBox f && addressed f = true.
Proof.
  unfold first_row, priority_table. cbn [find row_holds].
  destruct (geoInBoundingBox f), (addressed f), (locationMatch f), g; cbn; split; congruence.
Qed.

Lemma unconfirmed_row (f : Flags) (g : bool) :
  first_row f g = Some Unconfirmed <-> geoInBoundingBox f && negb (addressed f) = true.
Proof.
  unfold first_row, priority_table. cbn [find row_holds].
  destruct (geoInBoundingBox f), (addressed f), (locationMatch f), g; cbn; split; congruence.
Qed.

Lemma insertConfirmed_throws (self : Self) (t : TweetActivity) (db : Db) :
  hasGeo t = false ->
  exists e, insertConfirmed self t db = mkOut [] db (Throw e) /\ stack e = "TypeError".
Proof.
  unfold hasGeo, insertConfirmed, geo_coordinates. intros H.
  destruct (geo t) as [g|]; [destruct (coordinates g); [discriminate|]|];
    eexists; split; reflexivity.
Qed.

Lemma insertUnConfirmed_throws (self : Self) (t : TweetActivity) (db : Db) :
  hasGeo t = false ->
  exists e, insertUnConfirmed self t db = mkOut [] db (Throw e) /\ stack e = "TypeError".
Proof.
  unfold hasGeo, insertUnConfirmed, geo_coordinates. intros H.
  destruct (geo t) as [g|]; [destruct (coordinates g); [discriminate|]|];
    eexists; split; reflexivity.
Qed.



Lemma connects_app (l1 l2 : list Effect) :
  connects (l1 ++ l2) = (connects l1 ++ connects l2)%list.
Proof.
  induction l1 as [|e l1 IH]; [reflexivity|].
  destruct e; cbn; now rewrite IH.
Qed.

Lemma statuses_app (l1 l2 : list Effect) :
  statuses (l1 ++ l2) = (statuses l1 ++ statuses l2)%list.
Proof.
  induction l1 as [|e l1 IH]; [reflexivity|].
  destruct e; cbn; now rewrite IH.
Qed.

Lemma dbQuery_logging_connects (self : Self) (q : Query) (line : string) (db : Db) :
  connects (out_trace (dbQuery self q (Some (fun _ => logger info line)) db)) = [q] /\
  statuses (out_trace (dbQuery self q (Some (fun _ => logger info line)) db)) = [].
Proof.
  destruct (connect_error (pg self) q) as [e1|] eqn:H1.
  { rewrite (dbQuery_connect_error _ _ _ _ _ H1). split; reflexivity. }
  destruct (query_error (pg self) q) as [e2|] eqn:H2.
  { rewrite (dbQuery_query_error _ _ _ _ _ H1 H2). split; reflexivity. }
  rewrite (dbQuery_success _ _ _ _ H1 H2). split; reflexivity.
Qed.

(** A Confirmed tweet that carries coordinates: one report insert, the user
    upsert exactly when the insert went through, nothing sent to twitter. *)
Lemma confirmed_pipeline (self : Self) (t : TweetActivity) (db : Db) (g : Geo) (c : list string) :
  first_row (categorize (gnip_matching_rules t)) (hasGeo t) = Some Confirmed ->
  geo t = Some g -> coordinates g = Some c ->
  connects (out_trace (filter self t db)) =
    (if report_inserted self (confirmed_query self t c)
     then [confirmed_query self t c; upsert_query t]
     else [confirmed_query self t c]) /\
  statuses (out_trace (filter self t db)) = [] /\
  out_res (filter self t db) = Ok tt.
Proof.
  intros Hv Hg Hc.
  destruct (filter_action self t) as (v & Hv' & ->).
  rewrite Hv in Hv'. injection Hv' as <-. unfold action.
  rewrite (bind_out _ _ db db _ tt eq_refl). cbv zeta.
  rewrite (bind_out _ _ db db _ tt eq_refl). cbv zeta.
  unfold insertConfirmed.
  assert (Hgc : geo_coordinates t db = mkOut [] db (Ok c)).
  { unfold geo_coordinates. now rewrite Hg, Hc. }
  rewrite (bind_out _ _ db db [] c Hgc). cbv zeta.
  cbn [out_trace out_res app]. rewrite !connects_app, !statuses_app.
  unfold report_inserted.
  destruct (connect_error (pg self) (confirmed_query self t c)) as [e1|] eqn:H1.
  { rewrite (dbQuery_connect_error _ _ _ _ _ H1). repeat split. }
  destruct (query_error (pg self) (confirmed_query self t c)) as [e2|] eqn:H2.
  { rewrite (dbQuery_query_error _ _ _ _ _ H1 H2). repeat split. }
  rewrite (dbQuery_success _ _ _ _ H1 H2). cbv zeta. cbn [out_trace out_res].
  change (logger info "Logged confirmed tweet report")
    with (emit (Log info "Logged confirmed tweet report")).
  rewrite try_catch_emit. cbv zeta.
  rewrite try_catch_ok by apply dbQuery_returns.
  rewrite dbQuery_returns.
  destruct (dbQuery_logging_connects self (upsert_query t) "Logged confirmed tweet user"
              (snd (run_query self (confirmed_query self t c) db))) as (Hcn & Hst).
  cbn [out_trace out_db logger emit app].
  change (?a :: ?b :: ?c :: ?d :: ?e :: ?f :: ?g :: ?l)
    with ([a; b; c; d; e; f; g] ++ l)%list.
  rewrite !connects_app, !statuses_app, Hcn, Hst.
  repeat split.
Qed.

(** C6, at the input where the code departs from it.  The claim is that
    every tweet sorted as Confirmed gets exactly one report insert, the user
    upsert exactly when that insert succeeds, and no notification; with
    coordinates on the tweet that is [confirmed_pipeline].  A tweet tagged
    "geo-boundingbox" and "addressed-x" that carries no coordinates is sorted
    as Confirmed all the same, and [insertConfirmed] throws while it builds
    its values: no statement reaches the database, and the 'tweet' handler
    logs the TypeError. *)
Theorem confirmed_without_coordinates :
  let t := sample_tweet ["geo-boundingbox"; "addressed-x"] None in
  first_row (categorize (gnip_matching_rules t)) (hasGeo t) = Some Confirmed /\
  connects (out_trace (filter sample_self t [])) = [] /\
  out_res (filter sample_self t []) = Throw (type_error "coordinates") /\
  connects (out_trace (on_tweet sample_self t [])) = [] /\
  nth_error (rev (out_trace (on_tweet sample_self t []))) 0 =
    Some (Log error ("connectStream: stream.on('tweet'): Error on handler:" ++
                     "Cannot read property 'coordinates' of undefined" ++ ", " ++ "TypeError")).
Proof. cbv zeta. repeat split; vm_compute; reflexivity. Qed.

(** The same tags with coordinates: the insert, then the upsert. *)
Example confirmed_with_coordinates :
  let t := sample_tweet ["geo-boundingbox"; "addressed-x"] (Some chennai) in
  connects (out_trace (filter sample_self t [])) =
    [confirmed_query sample_self t ["13.08"; "80.27"]; upsert_query t] /\
  statuses (out_trace (filter sample_self t [])) = [].
Proof. cbv zeta. split; vm_compute; reflexivity. Qed.

(** ** Reconnection *)

Lemma clear_timer_one (h : nat) (d : Z) : clear_timer h [(h, d)] = [].
Proof. unfold clear_timer. cbn. now rewrite Nat.eqb_refl. Qed.

Lemma reconnectStream_one_timer (self : Self) (c : Conn) :
  one_timer c ->
  one_timer (snd (reconnectStream self c)) /\
  timers (snd (reconnectStream self c)) =
    [(next_handle c, node_delay (js_mul (streamReconnectTimeout c) (Num 1000)))] /\
  reconnectTimeoutHandle (snd (reconnectStream self c)) = Some (next_handle c) /\
  streamReconnectTimeout (snd (reconnectStream self c)) = streamReconnectTimeout c /\
  req (snd (reconnectStream self c)) = req c.
Proof.
  intros (Hlt & Hone).
  assert (Ht : timers (snd (reconnectStream self c)) =
               [(next_handle c, node_delay (js_mul (streamReconnectTimeout c) (Num 1000)))]).
  { unfold reconnectStream. cbn [snd timers].
    destruct Hone as [E | (h & d & E & Hh)].
    - rewrite E. now destruct (reconnectTimeoutHandle c).
    - rewrite Hh, E, clear_timer_one. reflexivity. }
  repeat split.
  - cbn. intros h [= <-]. lia.
  - right. eexists _, _. split; [exact Ht | reflexivity].
  - exact Ht.
Qed.

Lemma ended_one_timer (c : Conn) : one_timer c -> one_timer (ended c).
Proof. intros H. exact H. Qed.

(** What a trigger leaves: the timer it queued, and the request unless the
    trigger was the end of it. *)
Lemma trigger_one_timer (self : Self) (tr : Trigger) (c : Conn) :
  one_timer c ->
  one_timer (snd (trigger self tr c)) /\
  timers (snd (trigger self tr c)) =
    [(next_handle c, node_delay (js_mul (streamReconnectTimeout c) (Num 1000)))] /\
  reconnectTimeoutHandle (snd (trigger self tr c)) = Some (next_handle c) /\
  streamReconnectTimeout (snd (trigger self tr c)) = streamReconnectTimeout c /\
  req (snd (trigger self tr c)) = match tr with EndSignal => false | _ => req c end.
Proof.
  intros Hc. destruct tr; cbn [trigger on_req_timeout on_error on_end snd].
  - now apply reconnectStream_one_timer.
  - now apply reconnectStream_one_timer.
  - apply (reconnectStream_one_timer self (ended c)). now apply ended_one_timer.
Qed.

Lemma library_end_one_timer (self : Self) (c : Conn) :
  one_timer c ->
  one_timer (snd (library_end self c)) /\
  streamReconnectTimeout (snd (library_end self c)) = streamReconnectTimeout c.
Proof.
  intros Hc. unfold library_end. destruct (req c); [|now split].
  cbn [snd on_end].
  destruct (reconnectStream_one_timer self (ended c) (ended_one_timer c Hc))
    as (H1 & _ & _ & H2 & _).
  now split.
Qed.

Lemma stream_start_one_timer (self : Self) (c c' : Conn) (tr : list Effect) :
  stream_start self c = (tr, Ok c') -> one_timer c ->
  one_timer c' /\ streamReconnectTimeout c' = streamReconnectTimeout c /\ req c' = true.
Proof.
  unfold stream_start. intros H Hc.
  destruct (start_throws _ _); [discriminate|]. injection H as _ <-.
  destruct (library_end_one_timer self c Hc) as (H1 & H2).
  repeat split; try apply H1. exact H2.
Qed.


Lemma reconnectSocket_one_timer (self : Self) (c c' : Conn) (tr : list Effect) :
  reconnectSocket self c = (tr, Ok c') -> one_timer c ->
  one_timer c' /\
  streamReconnectTimeout c' = js_mul (streamReconnectTimeout c) (Num 2) /\
  req c' = true.
Proof.
  unfold reconnectSocket. intros H Hc.
  destruct (stream_start self c) as [tr1 [c1|e]] eqn:E; [|discriminate].
  injection H as _ <-.
  destruct (stream_start_one_timer self c c1 tr1 E Hc) as (H1 & H2 & H3).
  cbn. rewrite H2. repeat split; try apply H1. exact H3.
Qed.

Lemma timer_fires_one_timer (self : Self) (h : nat) (c c' : Conn) (tr : list Effect) :
  timer_fires self h c = (tr, Ok c') -> one_timer c -> one_timer c'.
Proof.
  unfold timer_fires. intros H (Hlt & Hone).
  destruct (existsb _ (timers c)) eqn:E; [|injection H as _ <-; now split].
  apply reconnectSocket_one_timer in H; [apply H|].
  split; [exact Hlt|]. left. cbn.
  destruct Hone as [E0 | (h0 & d & E0 & Hh)]; rewrite E0 in *; [discriminate|].
  cbn in E. rewrite orb_false_r in E. apply Nat.eqb_eq in E. cbn in E. subst h0.
  apply clear_timer_one.
Qed.

Lemma on_ready_one_timer (self : Self) (c c' : Conn) (tr : list Effect) :
  on_ready self c = (tr, Ok c') -> one_timer c -> one_timer c'.
Proof.
  unfold on_ready. intros H Hc. destruct (req c); [|discriminate].
  injection H as _ <-. exact Hc.
Qed.

Lemma rules_updated_one_timer (self : Self) (err : option Exn) (c c' : Conn) (tr : list Effect) :
  rules_updated self err c = (tr, Ok c') -> one_timer c -> one_timer c'.
Proof.
  unfold rules_updated. intros H Hc. destruct err; [discriminate|].
  destruct (stream_start self c) as [tr1 [c1|e]] eqn:E; cbn [fst snd] in H; [|discriminate].
  injection H as _ <-. now apply (stream_start_one_timer self c c1 tr1 E).
Qed.

(** A turn that the handlers of the connection take, with its result. *)
Lemma deliver_conn (self : Self) (s : Signal) (p p' : Proc) (tr : list Effect) :
  deliver self s p = (tr, Ok p') ->
  match s with
  | RulesAnswer err => rules_updated self err (conn p) = (tr, Ok (conn p'))
  | Ready => on_ready self (conn p) = (tr, Ok (conn p'))
  | Tweet t => conn p' = conn p
  | StreamError err => on_error self err (conn p) = (tr, conn p')
  | StreamEnd => on_end self (ended (conn p)) = (tr, conn p')
  | ReqTimeout => on_req_timeout self (conn p) = (tr, conn p')
  | TimerFires h => timer_fires self h (conn p) = (tr, Ok (conn p'))
  end.
Proof.
  intros H. destruct s; cbn [deliver] in H.
  - destruct (rules_updated self err (conn p)) as [tr0 [c|e]]; cbn [fst snd] in H;
      [|discriminate]. now injection H as <- <-.
  - destruct (on_ready self (conn p)) as [tr0 [c|e]]; cbn [fst snd] in H;
      [|discriminate]. now injection H as <- <-.
  - destruct (out_res _); [|discriminate]. now injection H as _ <-.
  - destruct (on_error self err (conn p)) as [tr0 c]. now injection H as <- <-.
  - destruct (on_end self (ended (conn p))) as [tr0 c]. now injection H as <- <-.
  - destruct (on_req_timeout self (conn p)) as [tr0 c]. now injection H as <- <-.
  - destruct (timer_fires self handle (conn p)) as [tr0 [c|e]]; cbn [fst snd] in H;
      [|discriminate]. now injection H as <- <-.
Qed.

(** Every turn of the event loop keeps [one_timer]. *)
Lemma deliver_one_timer (self : Self) (s : Signal) (p p' : Proc) (tr : list Effect) :
  deliver self s p = (tr, Ok p') -> one_timer (conn p) -> one_timer (conn p').
Proof.
  intros H Hc. apply deliver_conn in H. destruct s.
  - now apply (rules_updated_one_timer self err (conn p) (conn p') tr).
  - now apply (on_ready_one_timer self (conn p) (conn p') tr).
  - now rewrite H.
  - replace (conn p') with (snd (trigger self (ErrorSignal err) (conn p)))
      by (cbn [trigger]; now rewrite H).
    now apply trigger_one_timer.
  - replace (conn p') with (snd (trigger self EndSignal (conn p)))
      by (cbn [trigger]; now rewrite H).
    now apply trigger_one_timer.
  - replace (conn p') with (snd (trigger self IdleTimeout (conn p)))
      by (cbn [trigger]; now rewrite H).
    now apply trigger_one_timer.
  - now apply (timer_fires_one_timer self handle (conn p) (conn p') tr).
Qed.

Lemma run_one_timer (self : Self) (sigs : list Signal) : forall p p' tr,
  run self sigs p = (tr, Ok p') -> one_timer (conn p) -> one_timer (conn p').
Proof.
  induction sigs as [|s sigs IH]; intros p p' tr H Hc; cbn [run] in H.
  - injection H as _ <-. exact Hc.
  - destruct (deliver self s p) as [tr1 [p1|e]] eqn:E; [|discriminate].
    cbv zeta in H. destruct (run self sigs p1) as [tr2 r2] eqn:E2. cbn [fst snd] in H.
    injection H as _ ->.
    exact (IH p1 p' tr2 E2 (deliver_one_timer self s p p1 tr1 E Hc)).
Qed.

Lemma reachable_one_timer (self : Self) (p : Proc) : reachable self p -> one_timer (conn p).
Proof.
  intros (sigs & db & tr & H). apply (run_one_timer self sigs _ p tr H).
  split; [discriminate | now left].
Qed.

Lemma deliver_trigger (self : Self) (tr : Trigger) (p : Proc) :
  deliver self (signal_of tr) p =
  (fst (trigger self tr (conn p)),
   Ok {| conn := snd (trigger self tr (conn p)); store := store p |}).
Proof. destruct tr; reflexivity. Qed.

Lemma run_triggers (self : Self) (trs : list Trigger) : forall p,
  exists tr, run self (map signal_of trs) p =
             (tr, Ok {| conn := triggers self trs (conn p); store := store p |}).
Proof.
  induction trs as [|t trs IH]; intros p; cbn [map run].
  - exists []. now destruct p.
  - rewrite deliver_trigger. cbv zeta.
    destruct (IH {| conn := snd (trigger self t (conn p)); store := store p |}) as (tr & ->).
    eexists. reflexivity.
Qed.

Lemma triggers_one_timer (self : Self) (trs : list Trigger) : forall c,
  one_timer c -> trs <> [] ->
  one_timer (triggers self trs c) /\
  streamReconnectTimeout (triggers self trs c) = streamReconnectTimeout c /\
  exists h,
    timers (triggers self trs c) =
      [(h, node_delay (js_mul (streamReconnectTimeout c) (Num 1000)))] /\
    reconnectTimeoutHandle (triggers self trs c) = Some h.
Proof.
  induction trs as [|t trs IH]; intros c Hc Hne; [contradiction|].
  unfold triggers. cbn [fold_left]. fold (triggers self trs (snd (trigger self t c))).
  destruct (trigger_one_timer self t c Hc) as (Hc1 & Ht1 & Hh1 & HT1 & _).
  destruct trs as [|t2 trs].
  - cbn [triggers fold_left]. repeat split; try apply Hc1; try assumption.
    exists (next_handle c). now split.
  - destruct (IH (snd (trigger self t c)) Hc1) as (Hc2 & HT2 & h & Ht2 & Hh2); [discriminate|].
    rewrite HT1 in *. repeat split; try apply Hc2; try assumption.
    exists h. now split.
Qed.

(** C5. However many disconnect triggers (idle timeout, 'error', 'end') are
    fired one after the other for a broken session, exactly one reconnect is
    left scheduled: every call of [reconnectStream] clears the timer it
    queued before and queues a new one, so timers replace each other and do
    not stack. *)
Theorem reconnect_converges (self : Self) (p : Proc) (trs : list Trigger) :
  reachable self p -> trs <> [] ->
  let c' := triggers self trs (conn p) in
  (exists tr, run self (map signal_of trs) p = (tr, Ok {| conn := c'; store := store p |})) /\
  length (timers c') = 1 /\
  (exists h,
     timers c' = [(h, node_delay (js_mul (streamReconnectTimeout (conn p)) (Num 1000)))] /\
     reconnectTimeoutHandle c' = Some h) /\
  (forall h, reconnectTimeoutHandle (conn p) = Some h ->
     fst (reconnectStream self (conn p)) =
       [ClearTimeout h;
        Log info ("connectStream: queing reconnect for " ++
                  show_num self (streamReconnectTimeout (conn p)));
        SetTimeout (next_handle (conn p)) (js_mul (streamReconnectTimeout (conn p)) (Num 1000))] /\
     ~ In h (map fst (timers (snd (reconnectStream self (conn p)))))).
Proof.
  intros Hr Hne c'.
  pose proof (reachable_one_timer self p Hr) as Hc.
  destruct (triggers_one_timer self trs (conn p) Hc Hne) as (_ & _ & h & Ht & Hh).
  split; [apply run_triggers|].
  split; [subst c'; now rewrite Ht|].
  split; [now exists h|].
  intros h0 Hh0. split.
  - unfold reconnectStream. cbn [fst]. now rewrite Hh0.
  - destruct (reconnectStream_one_timer self (conn p) Hc) as (_ & Ht1 & _ & _).
    rewrite Ht1. cbn. destruct Hc as (Hlt & _). specialize (Hlt h0 Hh0). lia.
Qed.

(** After the rules are pushed and the stream is ready, 'error' and 'end'
    arrive together: one timer is queued, for 1000 ms. *)
Lemma reconnect_converges_witness :
  timers (triggers sample_self [ErrorSignal "ECONNRESET"; EndSignal] ready_conn) =
    [(1, 1000%Z)] /\
  length (timers (triggers sample_self [ErrorSignal "ECONNRESET"; EndSignal] ready_conn)) = 1.
Proof.
  split; [vm_compute; reflexivity|].
  refine (proj1 (proj2 (reconnect_converges sample_self
            {| conn := ready_conn; store := [] |}
            [ErrorSignal "ECONNRESET"; EndSignal] _ _))).
  - exists [RulesAnswer None; Ready], [], ([Log info "connectStream: Connecting stream..."; StreamStart;
                                             Log info "connectStream: Stream ready!"; ReqSetTimeout 60000]).
    reflexivity.
  - discriminate.
Defined.

(** ** Numbers *)

Lemma round53_scaled (m k : Z) :
  (0 < m < 2 ^ 53)%Z -> (0 <= k)%Z -> round53 (m * 2 ^ k) = (m * 2 ^ k)%Z.
Proof.
  intros Hm Hk. unfold round53.
  rewrite Z.log2_mul_pow2 by lia.
  destruct (k + Z.log2 m <? 53)%Z eqn:E; [reflexivity|].
  apply Z.ltb_ge in E.
  assert (Hl : (Z.log2 m < 53)%Z) by (apply Z.log2_lt_pow2; lia).
  pose proof (Z.log2_nonneg m) as Hl0.
  set (sh := (k + Z.log2 m - 52)%Z).
  assert (Hsh : (0 < sh <= k)%Z) by (subst sh; lia).
  assert (Hsplit : (m * 2 ^ k = (m * 2 ^ (k - sh)) * 2 ^ sh)%Z).
  { rewrite <- Z.mul_assoc, <- Z.pow_add_r by lia. f_equal. f_equal. lia. }
  cbv zeta. rewrite Hsplit.
  rewrite Z.div_mul by (apply Z.pow_nonzero; lia).
  rewrite Z.mod_mul by (apply Z.pow_nonzero; lia).
  assert (Hh : (0 < 2 ^ (sh - 1))%Z) by (apply Z.pow_pos_nonneg; lia).
  replace (2 ^ (sh - 1) <? 0)%Z with false by (symmetry; apply Z.ltb_ge; lia).
  replace (0 =? 2 ^ (sh - 1))%Z with false by (symmetry; apply Z.eqb_neq; lia).
  reflexivity.
Qed.

Lemma js_mul_double (n : Z) :
  (0 <= n)%Z ->
  js_mul (Num (2 ^ n)) (Num 2) = if (n <? 1023)%Z then Num (2 ^ (n + 1)) else Infinity.
Proof.
  intros Hn. unfold js_mul.
  replace (2 ^ n * 2)%Z with (1 * 2 ^ (n + 1))%Z by (rewrite Z.pow_add_r by lia; lia).
  rewrite round53_scaled by lia. rewrite Z.mul_1_l.
  destruct (n <? 1023)%Z eqn:E.
  - apply Z.ltb_lt in E.
    replace (2 ^ (n + 1) <? 2 ^ 1024)%Z with true; [reflexivity|].
    symmetry. apply Z.ltb_lt. apply Z.pow_lt_mono_r; lia.
  - apply Z.ltb_ge in E.
    replace (2 ^ (n + 1) <? 2 ^ 1024)%Z with false; [reflexivity|].
    symmetry. apply Z.ltb_ge. apply Z.pow_le_mono_r; lia.
Qed.

Lemma js_mul_thousand (n : Z) :
  (0 <= n <= 1014)%Z -> js_mul (Num (2 ^ n)) (Num 1000) = Num (1000 * 2 ^ n).
Proof.
  intros Hn. unfold js_mul. rewrite (Z.mul_comm (2 ^ n) 1000).
  rewrite round53_scaled by lia.
  replace (1000 * 2 ^ n <? 2 ^ 1024)%Z with true; [reflexivity|].
  symmetry. apply Z.ltb_lt.
  apply Z.le_lt_trans with (1000 * 2 ^ 1014)%Z.
  - apply Z.mul_le_mono_nonneg_l; [lia|]. apply Z.pow_le_mono_r; lia.
  - replace (2 ^ 1024)%Z with (1024 * 2 ^ 1014)%Z.
    + apply Z.mul_lt_mono_pos_r; [apply Z.pow_pos_nonneg; lia | lia].
    + change 1024%Z with (2 ^ 10)%Z. rewrite <- Z.pow_add_r by lia. reflexivity.
Qed.

(** The delay Node gives the reconnect when the variable holds [2 ^ n]: the
    product up to 2^21 seconds, 1 ms beyond. *)
Lemma node_delay_pow2 (n : Z) :
  (0 <= n)%Z ->
  node_delay (js_mul (Num (2 ^ n)) (Num 1000)) =
  if (n <=? 21)%Z then (1000 * 2 ^ n)%Z else 1%Z.
Proof.
  intros Hn. destruct (n <=? 21)%Z eqn:E.
  - apply Z.leb_le in E. rewrite js_mul_thousand by lia. unfold node_delay, TIMEOUT_MAX.
    assert (H1 : (1 <= 2 ^ n)%Z) by (apply (Z.pow_le_mono_r 2 0 n); lia).
    assert (H2 : (2 ^ n <= 2 ^ 21)%Z) by (apply Z.pow_le_mono_r; lia).
    change (2 ^ 21)%Z with 2097152%Z in H2.
    replace (1 <=? 1000 * 2 ^ n)%Z with true by (symmetry; apply Z.leb_le; lia).
    replace (1000 * 2 ^ n <=? 2147483647)%Z with true by (symmetry; apply Z.leb_le; lia).
    reflexivity.
  - apply Z.leb_gt in E. unfold js_mul. rewrite (Z.mul_comm (2 ^ n) 1000).
    rewrite round53_scaled by lia.
    destruct (1000 * 2 ^ n <? 2 ^ 1024)%Z; [|reflexivity].
    unfold node_delay, TIMEOUT_MAX.
    assert (H2 : (2 ^ 22 <= 2 ^ n)%Z) by (apply Z.pow_le_mono_r; lia).
    change (2 ^ 22)%Z with 4194304%Z in H2.
    replace (1000 * 2 ^ n <=? 2147483647)%Z with false by (symmetry; apply Z.leb_gt; lia).
    now rewrite andb_false_r.
Qed.

(** ** Backoff *)









(** ** Errors *)

Lemma on_tweet_cases (self : Self) (t : TweetActivity) (db : Db) :
  let o := filter self t db in
  let first := Log debug ("connectStream: stream.on('tweet'): tweet = " ++ stringify_tweet t) in
  on_tweet self t db =
  match out_res o with
  | Ok _ => mkOut (first :: out_trace o) (out_db o) (Ok tt)
  | Throw e =>
      mkOut (first :: out_trace o ++
             [Log error ("connectStream: stream.on('tweet'): Error on handler:" ++
                         message e ++ ", " ++ stack e)])
            (out_db o) (Ok tt)
  end.
Proof.
  cbv zeta. unfold on_tweet, bind, try_catch, logger, emit. cbn [out_res out_db out_trace app].
  destruct (filter self t db) as [tr db' [[]|e]]; reflexivity.
Qed.

Lemma on_tweet_returns (self : Self) (t : TweetActivity) (db : Db) :
  out_res (on_tweet self t db) = Ok tt.
Proof.
  pose proof (on_tweet_cases self t db) as H. cbv zeta in H. rewrite H.
  destruct (out_res (filter self t db)); reflexivity.
Qed.

Lemma deliver_tweet (self : Self) (t : TweetActivity) (p : Proc) :
  snd (deliver self (Tweet t) p) =
  Ok {| conn := conn p; store := out_db (on_tweet self t (store p)) |}.
Proof. unfold deliver. cbn [snd]. now rewrite on_tweet_returns. Qed.

(** What the handlers do with the errors they meet: an error thrown by
    [filter] is caught and logged by the 'tweet' handler, [dbQuery] logs
    connection and statement errors and returns, a refused status is logged,
    and stream errors, ends and idle timeouts only queue a reconnect. *)
Lemma errors_are_logged (self : Self) (p : Proc) :
  (forall t db,
     out_res (on_tweet self t db) = Ok tt /\
     forall e, out_res (filter self t db) = Throw e ->
       In (Log error ("connectStream: stream.on('tweet'): Error on handler:" ++
                      message e ++ ", " ++ stack e))
          (out_trace (on_tweet self t db))) /\
  (forall q success db,
     out_res (dbQuery self q success db) = Ok tt /\
     (forall err, connect_error (pg self) q = Some err ->
        In (Log error ("dbQuery: " ++ stringify q ++ ", " ++ err))
           (out_trace (dbQuery self q success db)) /\
        connects (out_trace (dbQuery self q success db)) = [q]) /\
     (forall err, connect_error (pg self) q = None -> query_error (pg self) q = Some err ->
        In (Log error ("dbQuery: " ++ stringify q ++ ", " ++ err))
           (out_trace (dbQuery self q success db)) /\
        connects (out_trace (dbQuery self q success db)) = [q])) /\
  (forall user msg cb db err,
     existence_query self user db = Some [] ->
     printable msg = true ->
     twitter_send_enabled (config self) = true ->
     updateStatus_error (twit self) (status_text user msg) = Some err ->
     sendReplyTweet self user msg cb db =
       mkOut (answered (user_query self user) ++
              [UpdateStatus (status_text user msg); Log error ("Tweeting failed: " ++ err)])
             db (Ok tt)) /\
  (forall tr, exists p',
     deliver self (signal_of tr) p = (fst (trigger self tr (conn p)), Ok p') /\
     length (timers (conn p')) >= 1).
Proof.
  split; [|split; [|split]].
  - intros t db. split; [apply on_tweet_returns|].
    intros e He. pose proof (on_tweet_cases self t db) as H. cbv zeta in H.
    rewrite H, He. cbn [out_trace]. right. apply in_or_app. right. now left.
  - intros q success db. split; [apply dbQuery_returns|]. split.
    + intros err H. rewrite (dbQuery_connect_error _ _ _ _ _ H). cbn. intuition.
    + intros err H1 H2. rewrite (dbQuery_query_error _ _ _ _ _ H1 H2). cbn. intuition.
  - intros user msg cb db err Ex Hp En Es. unfold printable in Hp.
    rewrite sendReplyTweet_cases, Ex, En, Es. now destruct (to_text msg).
  - intros tr. eexists. split; [apply deliver_trigger|].
    cbn [conn]. destruct tr; cbn [trigger on_error on_end snd];
      unfold on_req_timeout, reconnectStream, ended; cbn [snd timers reconnectTimeoutHandle];
      rewrite length_app; cbn; lia.
Qed.

(** The turns that end in an uncaught exception, as the code has them: the
    callback of [rules.update] rethrows the error it is given; [stream.start()]
    is called unguarded by that callback and by [reconnectSocket], so what it
    throws is not caught; and the 'ready' handler reads [stream._req]
    unguarded. *)
Lemma deliver_throws (self : Self) (s : Signal) (p : Proc) (e : Exn) :
  snd (deliver self s p) = Throw e <-> fatal self s p e.
Proof.
  unfold fatal. split.
  - intros H. destruct s; cbn [deliver snd] in H.
    + destruct err as [e'|]; cbn [rules_updated snd] in H.
      * injection H as <-. now left.
      * right. left. unfold stream_start in H.
        destruct (start_throws _ _) as [e'|]; cbn [snd] in H; [|discriminate].
        injection H as <-. split; [reflexivity | now left].
    + unfold on_ready in H. destruct (req (conn p)) eqn:E; cbn [snd] in H; [discriminate|].
      injection H as <-. right. right. now repeat split.
    + rewrite on_tweet_returns in H. discriminate.
    + discriminate.
    + discriminate.
    + discriminate.
    + unfold timer_fires in H.
      destruct (existsb _ (timers (conn p))) eqn:E; cbn [snd] in H; [|discriminate].
      unfold reconnectSocket, stream_start in H.
      destruct (start_throws _ _) as [e'|]; cbn [snd] in H; [|discriminate].
      injection H as <-. right. left. split; [reflexivity|]. right. now exists handle.
  - intros [-> | [(Hs & [-> | (h & -> & Hh)]) | (-> & Hr & ->)]]; cbn [deliver snd].
    + reflexivity.
    + cbn [rules_updated snd]. unfold stream_start. now rewrite Hs.
    + unfold timer_fires. rewrite Hh. unfold reconnectSocket, stream_start. now rewrite Hs.
    + unfold on_ready. now rewrite Hr.
Qed.

(** C7. The configuration as [powertrack-config.js] sets it gives the url of
    the stream under [gnip.streamUrl]; [connectStream] builds the stream from
    [gnip.steamUrl], which is not set.  The rules are pushed without error,
    the callback of [rules.update] calls [stream.start()], and that throws
    "Invalid end point specified!": the exception is not caught and the
    process dies, on a run in which the rules push did not fail.  With the url
    under the key the code reads, the same turn starts the stream and
    returns. *)
Theorem rules_pushed_start_throws :
  gnip_steamUrl (config shipped_self) = None /\
  run shipped_self [RulesAnswer None] {| conn := initial_conn; store := [] |} =
    ([Log info "connectStream: Connecting stream..."; StreamStart], Throw invalid_end_point) /\
  (forall sigs, exists tr,
     run shipped_self (RulesAnswer None :: sigs) {| conn := initial_conn; store := [] |} =
       (tr, Throw invalid_end_point)) /\
  run sample_self [RulesAnswer None] {| conn := initial_conn; store := [] |} =
    ([Log info "connectStream: Connecting stream..."; StreamStart],
     Ok {| conn := requesting initial_conn; store := [] |}).
Proof.
  split; [reflexivity|]. split; [reflexivity|]. split; [|reflexivity].
  intros sigs. eexists. cbn [run]. reflexivity.
Qed.

(** ** Scenarios *)

(** Tags "geo-boundingbox" and "addressed-x": Confirmed, with or without the
    "location" tag. *)
Example scenario_confirmed :
  first_row (categorize (gnip_matching_rules
               (sample_tweet ["geo-boundingbox"; "addressed-x"] (Some chennai)))) true
  = Some Confirmed.
Proof. reflexivity. Qed.

(** Tag "location-chennai" only, no coordinates: an invitation is sent, and
    the invitee is recorded after it. *)
Example scenario_invite :
  let t := sample_tweet ["location-chennai"] None in
  first_row (categorize (gnip_matching_rules t)) (hasGeo t) = Some Invite /\
  statuses (out_trace (filter sample_self t [])) = ["@alice Invite/Verification Tweet Text"] /\
  connects (out_trace (filter sample_self t [])) =
    [user_query sample_self "alice"; invitee_query sample_self t].
Proof. cbv zeta. repeat split; vm_compute; reflexivity. Qed.

(** The same tweet when twitter refuses the status: no invitee. *)
Example scenario_invite_refused :
  let t := sample_tweet ["location-chennai"] None in
  connects (out_trace (filter failing_twit_self t [])) = [user_query failing_twit_self "alice"].
Proof. vm_compute. reflexivity. Qed.

(** A "location" tag on a tweet that carries coordinates matches no row. *)
Example scenario_unmatched :
  let t := sample_tweet ["location-chennai"] (Some chennai) in
  first_row (categorize (gnip_matching_rules t)) (hasGeo t) = Some Unmatched /\
  out_trace (filter sample_self t []) =
    [Log verbose (received_line t);
     Log verbose "filter: Categorized tweetActivity via Gnip tags as -BOUNDINGBOX +GEO -ADDRESSED +LOCATION";
     Log warn "filter: Tweet did not match category actions: -BOUNDINGBOX +GEO -ADDRESSED +LOCATION"].
Proof. cbv zeta. split; vm_compute; reflexivity. Qed.

(** * Further properties *)

(** ** Weights of traces *)

Lemma total_app (w : Effect -> Z) (l1 l2 : list Effect) :
  total w (l1 ++ l2) = (total w l1 + total w l2)%Z.
Proof. induction l1 as [|e l1 IH]; cbn [app total]; lia. Qed.

Lemma trace_bind {A B} (m : M A) (k : A -> M B) (db : Db) :
  out_trace ((x <- m ;; k x) db) =
  (out_trace (m db) ++
   match out_res (m db) with
   | Ok a => out_trace (k a (out_db (m db)))
   | Throw _ => []
   end)%list.
Proof.
  unfold bind. destruct (out_res (m db)); cbn [out_trace]; [reflexivity | now rewrite app_nil_r].
Qed.

Lemma trace_try_catch (m : M unit) (h : Exn -> M unit) (db : Db) :
  out_trace (try_catch m h db) =
  (out_trace (m db) ++
   match out_res (m db) with
   | Ok _ => []
   | Throw e => out_trace (h e (out_db (m db)))
   end)%list.
Proof.
  unfold try_catch. destruct (out_res (m db)); cbn [out_trace]; [now rewrite app_nil_r | reflexivity].
Qed.

Section Measure.

Variable w : Effect -> Z.
Hypothesis w_log : forall l s, w (Log l s) = 0%Z.
Hypothesis w_pool : forall q, (w (PgConnect q) + w PgDone = 0)%Z.
Hypothesis w_query : forall q, w (ClientQuery q) = 0%Z.
Hypothesis w_status : forall s, (0 <= w (UpdateStatus s))%Z.

Lemma bounded_ret {A} (a : A) : bounded w 0 (ret a).
Proof. intros db. cbn. lia. Qed.

Lemma bounded_throw {A} (e : Exn) : bounded w 0 (@throw A e).
Proof. intros db. cbn. lia. Qed.

Lemma bounded_logger (l : Level) (s : string) : bounded w 0 (logger l s).
Proof. intros db. cbn. rewrite w_log. lia. Qed.

Lemma bounded_weaken {A} (b b' : Z) (m : M A) :
  (b <= b')%Z -> bounded w b m -> bounded w b' m.
Proof. intros Hb H db. specialize (H db). lia. Qed.

Lemma bounded_bind {A B} (b1 b2 : Z) (m : M A) (k : A -> M B) :
  (0 <= b2)%Z ->
  bounded w b1 m -> (forall a, bounded w b2 (k a)) -> bounded w (b1 + b2) (x <- m ;; k x).
Proof.
  intros Hb Hm Hk db. rewrite trace_bind, total_app. specialize (Hm db).
  destruct (out_res (m db)) as [a|e].
  - specialize (Hk a (out_db (m db))). lia.
  - cbn [total]. lia.
Qed.

(** Sequencing two computations that weigh nothing. *)
Lemma bounded_seq0 {A B} (b : Z) (m : M A) (k : A -> M B) :
  (0 <= b)%Z ->
  bounded w 0 m -> (forall a, bounded w b (k a)) -> bounded w b (x <- m ;; k x).
Proof. intros Hb Hm Hk. exact (bounded_bind 0 b m k Hb Hm Hk). Qed.

Lemma bounded_try_catch (b : Z) (m : M unit) :
  bounded w b m -> bounded w b (try_catch m callback_failed).
Proof.
  intros Hm db. rewrite trace_try_catch, total_app. specialize (Hm db).
  destruct (out_res (m db)); cbn; rewrite ?w_log; lia.
Qed.

Lemma bounded_dbQuery (self : Self) (q : Query) (b : Z) (f : list string -> M unit) :
  (0 <= b)%Z ->
  (forall rows, bounded w b (f rows)) -> bounded w b (dbQuery self q (Some f)).
Proof.
  intros Hb Hf db. pose proof (w_pool q) as Hp.
  destruct (connect_error (pg self) q) as [e1|] eqn:H1.
  { rewrite (dbQuery_connect_error _ _ _ _ _ H1). cbn. rewrite !w_log. lia. }
  destruct (query_error (pg self) q) as [e2|] eqn:H2.
  { rewrite (dbQuery_query_error _ _ _ _ _ H1 H2). cbn. rewrite !w_log, w_query. lia. }
  rewrite (dbQuery_success _ _ _ _ H1 H2). cbv zeta. cbn [out_trace].
  rewrite total_app. cbn [total]. rewrite !w_log, w_query.
  pose proof (bounded_try_catch b _ (Hf (fst (run_query self q db))) (snd (run_query self q db))).
  lia.
Qed.

Lemma bounded_ifNewUser (self : Self) (user : string) (b : Z) (f : list string -> M unit) :
  (0 <= b)%Z ->
  (forall rows, bounded w b (f rows)) -> bounded w b (ifNewUser self user f).
Proof.
  intros Hb Hf. unfold ifNewUser. apply bounded_dbQuery; [assumption|].
  intros rows. destruct (Nat.eqb (length rows) 0); [apply Hf|].
  apply (bounded_weaken 0 b); [assumption | apply bounded_logger].
Qed.

Lemma bounded_geo_coordinates (t : TweetActivity) : bounded w 0 (geo_coordinates t).
Proof.
  unfold geo_coordinates. destruct (geo t) as [g|]; [destruct (coordinates g)|];
    first [apply bounded_ret | apply bounded_throw].
Qed.

Lemma bounded_getMessage (self : Self) (code lang : string) :
  bounded w 0 (getMessage self code lang).
Proof.
  intros db. rewrite getMessage_resolve. cbn [out_trace]. unfold unresolved_line.
  destruct (resolve self code lang) as [[]|]; cbn; rewrite ?w_log; lia.
Qed.

Lemma bounded_with_message (self : Self) (code lang : string) (b : Z)
    (k : JsVal -> M unit) :
  bounded w b (k (resolve self code lang)) ->
  bounded w b (m <- getMessage self code lang ;; k m).
Proof.
  intros Hk db.
  rewrite (bind_out _ _ _ _ _ _ (getMessage_resolve self code lang db)).
  cbv zeta. cbn [out_trace]. rewrite total_app. specialize (Hk db). unfold unresolved_line.
  destruct (resolve self code lang) as [[]|]; cbn [total]; rewrite ?w_log; lia.
Qed.

Lemma bounded_insertConfirmed (self : Self) (t : TweetActivity) :
  bounded w 0 (insertConfirmed self t).
Proof.
  unfold insertConfirmed. apply bounded_seq0; [lia | apply bounded_geo_coordinates|].
  intros c. apply bounded_dbQuery; [lia|]. intros rows.
  apply bounded_seq0; [lia | apply bounded_logger|]. intros _.
  apply bounded_dbQuery; [lia|]. intros _. apply bounded_logger.
Qed.

Lemma bounded_insertUnConfirmed (self : Self) (t : TweetActivity) :
  bounded w 0 (insertUnConfirmed self t).
Proof.
  unfold insertUnConfirmed. apply bounded_seq0; [lia | apply bounded_geo_coordinates|].
  intros c. apply bounded_dbQuery; [lia|]. intros rows. apply bounded_logger.
Qed.

Lemma bounded_insertInvitee (self : Self) (t : TweetActivity) :
  bounded w 0 (insertInvitee self t).
Proof.
  unfold insertInvitee. apply bounded_dbQuery; [lia|]. intros rows. apply bounded_logger.
Qed.

Lemma bounded_insertNonSpatial (self : Self) (t : TweetActivity) :
  bounded w 0 (insertNonSpatial self t).
Proof.
  unfold insertNonSpatial. apply bounded_seq0; [lia| |].
  - apply bounded_dbQuery; [lia|]. intros rows. apply bounded_logger.
  - intros _. apply bounded_ifNewUser; [lia|]. intros rows.
    apply bounded_dbQuery; [lia|]. intros _. apply bounded_logger.
Qed.

(** A reply weighs at most its status, and nothing when sending is
    disabled. *)
Lemma bounded_sendReplyTweet (self : Self) (user : string) (msg : JsVal)
    (cb : option (M unit)) :
  (forall m, cb = Some m -> bounded w 0 m) ->
  bounded w (if twitter_send_enabled (config self)
             then w (UpdateStatus (status_text user msg)) else 0%Z)
    (sendReplyTweet self user msg cb).
Proof.
  intros Hcb. pose proof (w_status (status_text user msg)) as Hs.
  assert (Hrun : bounded w 0 (run_callback cb)).
  { destruct cb as [m|]; [now apply Hcb | apply bounded_ret]. }
  unfold sendReplyTweet. apply bounded_ifNewUser.
  { destruct (twitter_send_enabled (config self)); lia. }
  intros rows. unfold reply, concat_status. destruct (twitter_send_enabled (config self)).
  - destruct (to_text msg) as [tx|];
      [|intros db; unfold bind, throw; cbn [out_res out_trace total]; lia].
    intros db. rewrite trace_bind. cbn [ret out_trace out_res out_db app].
    rewrite trace_bind. cbn [emit out_trace out_res out_db app total].
    destruct (updateStatus_error (twit self) (status_text user msg)).
    + cbn [logger emit out_trace app total]. rewrite w_log. lia.
    + specialize (Hrun db). lia.
  - apply bounded_seq0; [lia | apply bounded_logger|]. intros _.
    apply bounded_seq0; [lia | destruct (to_text msg); [apply bounded_ret | apply bounded_throw]|].
    intros status.
    apply bounded_seq0; [lia | apply bounded_logger|]. intros _. exact Hrun.
Qed.

Lemma bounded_action (self : Self) (t : TweetActivity) (cats : string) (v : Verdict) :
  bounded w (reply_weight w self t v) (action self t cats v).
Proof.
  assert (Hnn : (0 <= reply_weight w self t v)%Z).
  { unfold reply_weight. destruct (twitter_send_enabled _); [|lia].
    destruct (reply_status self t v); [apply w_status | lia]. }
  destruct v; unfold action.
  - apply bounded_seq0; [assumption | apply bounded_logger|]. intros _.
    apply (bounded_weaken 0); [assumption | apply bounded_insertConfirmed].
  - apply bounded_seq0; [assumption | apply bounded_logger|]. intros _.
    apply bounded_seq0; [assumption | apply bounded_insertNonSpatial|]. intros _.
    apply bounded_with_message.
    apply bounded_sendReplyTweet. discriminate.
  - apply bounded_seq0; [assumption | apply bounded_logger|]. intros _.
    apply bounded_seq0; [assumption | apply bounded_insertUnConfirmed|]. intros _.
    apply bounded_with_message.
    apply bounded_sendReplyTweet. intros m0 [= <-]. apply bounded_insertInvitee.
  - apply bounded_seq0; [assumption | apply bounded_logger|]. intros _.
    apply bounded_with_message.
    apply bounded_sendReplyTweet. intros m0 [= <-]. apply bounded_insertInvitee.
  - apply (bounded_weaken 0); [assumption | apply bounded_logger].
Qed.

Lemma bounded_filter (self : Self) (t : TweetActivity) (v : Verdict) :
  first_row (categorize (gnip_matching_rules t)) (hasGeo t) = Some v ->
  bounded w (reply_weight w self t v) (filter self t).
Proof.
  intros Hv. destruct (filter_action self t) as (v' & Hv' & ->).
  rewrite Hv in Hv'. injection Hv' as <-.
  assert (Hnn : (0 <= reply_weight w self t v)%Z).
  { pose proof (bounded_action self t "" v []). lia. }
  apply bounded_seq0; [assumption| |intros _; apply bounded_action].
  unfold prelude. apply bounded_seq0; [lia | apply bounded_logger|].
  intros _. apply bounded_logger.
Qed.

Lemma bounded_on_tweet (self : Self) (t : TweetActivity) (v : Verdict) :
  first_row (categorize (gnip_matching_rules t)) (hasGeo t) = Some v ->
  bounded w (reply_weight w self t v) (on_tweet self t).
Proof.
  intros Hv db. pose proof (bounded_filter self t v Hv db) as H.
  pose proof (on_tweet_cases self t db) as E. cbv zeta in E. rewrite E.
  destruct (out_res (filter self t db)); cbn [out_trace total]; rewrite ?total_app, w_log;
    cbn [total]; rewrite ?w_log; lia.
Qed.

End Measure.

(** ** What a tweet can cost *)

Lemma total_pool (tr : list Effect) :
  total pool_weight tr = (Z.of_nat (length (connects tr)) - Z.of_nat (dones tr))%Z.
Proof.
  induction tr as [|e tr IH]; [reflexivity|].
  destruct e; cbn [total pool_weight connects dones length]; lia.
Qed.

Lemma total_status (tr : list Effect) :
  total status_weight tr = Z.of_nat (length (statuses tr)).
Proof.
  induction tr as [|e tr IH]; [reflexivity|].
  destruct e; cbn [total status_weight statuses length]; lia.
Qed.

Lemma total_other_status_nonneg (s0 : string) (tr : list Effect) :
  (0 <= total (other_status_weight s0) tr)%Z.
Proof.
  induction tr as [|e tr IH]; cbn [total]; [lia|].
  destruct e; cbn [other_status_weight]; try lia.
  destruct (String.eqb status s0); lia.
Qed.

Lemma total_other_status (s0 : string) (tr : list Effect) :
  total (other_status_weight s0) tr = 0%Z -> forall s, In s (statuses tr) -> s = s0.
Proof.
  induction tr as [|e tr IH]; cbn [total statuses]; [intros _ s []|].
  pose proof (total_other_status_nonneg s0 tr) as Hnn.
  destruct e; cbn [other_status_weight]; try (intros H; apply IH; lia).
  destruct (String.eqb status s0) eqn:E; [|lia].
  apply String.eqb_eq in E. intros H s [<- | Hin]; [assumption | apply IH; [lia | assumption]].
Qed.

(** X1. Every client checked out of the pool while a tweet is handled is
    released: as many calls of [done] as of [pg.connect], whatever fails. *)
Theorem pg_clients_released (self : Self) (t : TweetActivity) (db : Db) :
  dones (out_trace (on_tweet self t db)) = length (connects (out_trace (on_tweet self t db))).
Proof.
  destruct (first_row_total (categorize (gnip_matching_rules t)) (hasGeo t)) as (v & Hv).
  pose proof (bounded_on_tweet pool_weight (fun _ _ => eq_refl) (fun _ => eq_refl)
                (fun _ => eq_refl) (fun _ => Z.le_refl 0) self t v Hv db) as H.
  rewrite total_pool in H. unfold reply_weight in H.
  destruct (twitter_send_enabled (config self)); [destruct (reply_status self t v)|];
    cbn [pool_weight] in H; lia.
Qed.

(** X2. Handling a tweet sends at most one status, and only the reply of its
    branch: the resolved text of the branch's code, addressed to the author
    of the tweet.  A Confirmed or Unmatched tweet sends none, and none is
    sent when sending is disabled. *)
Theorem at_most_one_reply (self : Self) (t : TweetActivity) (db : Db) (v : Verdict) :
  first_row (categorize (gnip_matching_rules t)) (hasGeo t) = Some v ->
  statuses (out_trace (on_tweet self t db)) = [] \/
  (twitter_send_enabled (config self) = true /\
   exists code,
     reply_code v = Some code /\
     statuses (out_trace (on_tweet self t db)) =
       ["@" ++ actor_preferredUsername t ++ " " ++ str_of (resolve self code (twitter_lang t))]).
Proof.
  intros Hv.
  pose proof (bounded_on_tweet status_weight (fun _ _ => eq_refl) (fun _ => eq_refl)
                (fun _ => eq_refl) (fun _ => Z.le_0_1) self t v Hv db) as H1.
  rewrite total_status in H1. unfold reply_weight, reply_status in H1.
  destruct (twitter_send_enabled (config self)) eqn:En.
  2:{ left. apply length_zero_iff_nil. lia. }
  destruct (reply_code v) as [code|] eqn:Ec; cbv beta iota in H1.
  2:{ left. apply length_zero_iff_nil. lia. }
  cbn [status_weight] in H1.
  set (s0 := status_text (actor_preferredUsername t) (resolve self code (twitter_lang t))) in *.
  assert (Hw : forall s, (0 <= other_status_weight s0 (UpdateStatus s))%Z).
  { intros s. cbn [other_status_weight]. destruct (String.eqb s s0); lia. }
  pose proof (bounded_on_tweet (other_status_weight s0) (fun _ _ => eq_refl) (fun _ => eq_refl)
                (fun _ => eq_refl) Hw self t v Hv db) as H2.
  unfold reply_weight, reply_status in H2. rewrite En, Ec in H2. fold s0 in H2.
  cbn [other_status_weight] in H2. rewrite String.eqb_refl in H2.
  assert (H0 : total (other_status_weight s0) (out_trace (on_tweet self t db)) = 0%Z) by lia.
  pose proof (total_other_status s0 _ H0) as Hall.
  destruct (statuses (out_trace (on_tweet self t db))) as [|s [|s' r]].
  - now left.
  - right. split; [reflexivity|]. exists code. split; [reflexivity|].
    rewrite (Hall s (or_introl eq_refl)). reflexivity.
  - cbn [length] in H1. lia.
Qed.

(** A tweet tagged "location-chennai" only: one status, the invitation. *)
Lemma at_most_one_reply_witness :
  statuses (out_trace (on_tweet sample_self (sample_tweet ["location-chennai"] None) [])) = [] \/
  (twitter_send_enabled (config sample_self) = true /\
   exists code,
     reply_code Invite = Some code /\
     statuses (out_trace (on_tweet sample_self (sample_tweet ["location-chennai"] None) [])) =
       ["@" ++ "alice" ++ " " ++ str_of (resolve sample_self code "en")]).
Proof.
  exact (at_most_one_reply sample_self (sample_tweet ["location-chennai"] None) [] Invite eq_refl).
Defined.

(** ** When [filter] throws *)

Lemma res_bind {A B} (m : M A) (k : A -> M B) (db : Db) :
  out_res ((x <- m ;; k x) db) =
  match out_res (m db) with
  | Ok a => out_res (k a (out_db (m db)))
  | Throw e => Throw e
  end.
Proof. unfold bind. destruct (out_res (m db)); reflexivity. Qed.

Lemma sendReplyTweet_returns (self : Self) (user : string) (msg : JsVal)
    (cb : option (M unit)) (db : Db) :
  out_res (sendReplyTweet self user msg cb db) = Ok tt.
Proof. unfold sendReplyTweet, ifNewUser. apply dbQuery_returns. Qed.

Lemma geo_coordinates_cases (t : TweetActivity) (db : Db) :
  (hasGeo t = true /\ exists c, geo_coordinates t db = mkOut [] db (Ok c)) \/
  (hasGeo t = false /\ exists e, geo_coordinates t db = mkOut [] db (Throw e) /\
                                 stack e = "TypeError").
Proof.
  unfold hasGeo, geo_coordinates.
  destruct (geo t) as [g|]; [destruct (coordinates g) as [c|]|].
  - left. split; [reflexivity|]. now exists c.
  - right. split; [reflexivity|]. eexists. split; reflexivity.
  - right. split; [reflexivity|]. eexists. split; reflexivity.
Qed.

Lemma insertConfirmed_returns (self : Self) (t : TweetActivity) (db : Db) :
  hasGeo t = true -> out_res (insertConfirmed self t db) = Ok tt.
Proof.
  intros Hg. unfold insertConfirmed.
  destruct (geo_coordinates_cases t db) as [(_ & c & Hc) | (Hg' & _)]; [|congruence].
  rewrite (bind_out _ _ db db [] c Hc). cbv zeta. cbn [out_res]. apply dbQuery_returns.
Qed.

Lemma insertUnConfirmed_returns (self : Self) (t : TweetActivity) (db : Db) :
  hasGeo t = true -> out_res (insertUnConfirmed self t db) = Ok tt.
Proof.
  intros Hg. unfold insertUnConfirmed.
  destruct (geo_coordinates_cases t db) as [(_ & c & Hc) | (Hg' & _)]; [|congruence].
  rewrite (bind_out _ _ db db [] c Hc). cbv zeta. cbn [out_res]. apply dbQuery_returns.
Qed.

(** [filter], once its branch is known. *)
Lemma filter_unfold (self : Self) (t : TweetActivity) (db : Db) (v : Verdict) :
  first_row (categorize (gnip_matching_rules t)) (hasGeo t) = Some v ->
  filter self t db =
  let o := action self t (tweetCategorizations (categorize (gnip_matching_rules t)) (hasGeo t))
             v db in
  mkOut (out_trace (prelude t db) ++ out_trace o) (out_db o) (out_res o).
Proof.
  intros Hv. destruct (filter_action self t) as (v' & Hv' & ->).
  rewrite Hv in Hv'. injection Hv' as <-.
  now rewrite (bind_out _ _ db db _ tt eq_refl).
Qed.

(** The result of each branch. *)
Lemma action_res (self : Self) (t : TweetActivity) (cats : string) (v : Verdict) (db : Db) :
  out_res (action self t cats v db) =
  match v with
  | Confirmed => out_res (insertConfirmed self t db)
  | Unconfirmed =>
      match out_res (insertUnConfirmed self t db) with
      | Ok _ => Ok tt
      | Throw e => Throw e
      end
  | _ => Ok tt
  end.
Proof.
  destruct v; unfold action.
  - now rewrite res_bind.
  - rewrite res_bind. cbn [logger emit out_res out_db].
    rewrite res_bind, insertNonSpatial_returns.
    rewrite res_bind, getMessage_resolve. cbn [out_res]. apply sendReplyTweet_returns.
  - rewrite res_bind. cbn [logger emit out_res out_db].
    rewrite res_bind. destruct (out_res (insertUnConfirmed self t db)); [|reflexivity].
    rewrite res_bind, getMessage_resolve. cbn [out_res]. apply sendReplyTweet_returns.
  - rewrite res_bind. cbn [logger emit out_res out_db].
    rewrite res_bind, getMessage_resolve. cbn [out_res]. apply sendReplyTweet_returns.
  - reflexivity.
Qed.

(** X3. [filter] throws exactly on a tweet that has a tag of the "geo" family
    and no coordinates.  The exception is the TypeError of the unguarded
    [geo.coordinates]; nothing has reached the database or twitter by then,
    and the table of all users is as it was. *)
Theorem filter_throws_iff (self : Self) (t : TweetActivity) (db : Db) :
  ((exists e, out_res (filter self t db) = Throw e) <->
   (geoInBoundingBox (categorize (gnip_matching_rules t)) = true /\ hasGeo t = false)) /\
  (forall e, out_res (filter self t db) = Throw e ->
     stack e = "TypeError" /\
     out_db (filter self t db) = db /\
     connects (out_trace (filter self t db)) = [] /\
     statuses (out_trace (filter self t db)) = []).
Proof.
  destruct (first_row_total (categorize (gnip_matching_rules t)) (hasGeo t)) as (v & Hv).
  rewrite (filter_unfold self t db v Hv). cbv zeta. cbn [out_res out_db out_trace].
  rewrite connects_app, statuses_app, action_res.
  set (f := categorize (gnip_matching_rules t)) in *.
  set (cats := tweetCategorizations f (hasGeo t)).
  assert (Hother : v <> Confirmed -> v <> Unconfirmed -> geoInBoundingBox f = false).
  { intros H1 H2. unfold first_row, priority_table in Hv. cbn [find row_holds] in Hv.
    destruct (geoInBoundingBox f); [|reflexivity].
    destruct (addressed f); cbn in Hv; injection Hv as <-; congruence. }
  assert (Hgeo : v = Confirmed \/ v = Unconfirmed -> geoInBoundingBox f = true).
  { intros [-> | ->]; [apply confirmed_row in Hv | apply unconfirmed_row in Hv];
      now apply andb_prop in Hv. }
  destruct (hasGeo t) eqn:Hg.
  - (* coordinates: no branch throws *)
    assert (Hok : match v with
                  | Confirmed => out_res (insertConfirmed self t db)
                  | Unconfirmed =>
                      match out_res (insertUnConfirmed self t db) with
                      | Ok _ => Ok tt
                      | Throw e => Throw e
                      end
                  | _ => Ok tt
                  end = Ok tt).
    { destruct v; try reflexivity.
      - now apply insertConfirmed_returns.
      - now rewrite insertUnConfirmed_returns. }
    rewrite Hok. split; [|discriminate].
    split; [intros (e & H); discriminate | intros (_ & H); discriminate].
  - destruct v.
    + destruct (insertConfirmed_throws self t db Hg) as (e & He & Hs).
      unfold action. rewrite (bind_out _ _ db db _ tt eq_refl). cbv zeta.
      rewrite He. cbn [out_res out_db out_trace]. split.
      * split; [intros _; split; [apply Hgeo; now left | reflexivity] | intros _; now exists e].
      * intros e' [= <-]. repeat split; assumption.
    + split; [|discriminate]. split; [intros (e & H); discriminate|].
      intros (Hb & _). rewrite Hother in Hb; discriminate.
    + destruct (insertUnConfirmed_throws self t db Hg) as (e & He & Hs).
      unfold action. rewrite (bind_out _ _ db db _ tt eq_refl). cbv zeta.
      rewrite He, (bind_throw _ _ db db [] e He). cbn [out_res out_db out_trace]. split.
      * split; [intros _; split; [apply Hgeo; now right | reflexivity] | intros _; now exists e].
      * intros e' [= <-]. repeat split; assumption.
    + split; [|discriminate]. split; [intros (e & H); discriminate|].
      intros (Hb & _). rewrite Hother in Hb; discriminate.
    + split; [|discriminate]. split; [intros (e & H); discriminate|].
      intros (Hb & _). rewrite Hother in Hb; discriminate.
Qed.

(** ** Tweets that are not acted on *)

(** X4. A tweet without a tag of the "geo" family is dropped when it carries
    coordinates, addressed or not, and when it has no tag of the "location"
    family: [filter] logs its two lines and the warning, and does nothing
    else. *)
Theorem filter_ignores (self : Self) (t : TweetActivity) (db : Db) :
  geoInBoundingBox (categorize (gnip_matching_rules t)) = false ->
  hasGeo t = true \/ locationMatch (categorize (gnip_matching_rules t)) = false ->
  filter self t db =
  mkOut [Log verbose (received_line t);
         Log verbose ("filter: Categorized tweetActivity via Gnip tags as " ++
                      tweetCategorizations (categorize (gnip_matching_rules t)) (hasGeo t));
         Log warn ("filter: Tweet did not match category actions: " ++
                   tweetCategorizations (categorize (gnip_matching_rules t)) (hasGeo t))]
        db (Ok tt).
Proof.
  intros Hb Hor.
  assert (Hv : first_row (categorize (gnip_matching_rules t)) (hasGeo t) = Some Unmatched).
  { unfold first_row, priority_table. cbn [find row_holds]. rewrite Hb.
    destruct Hor as [-> | ->]; cbn; rewrite ?andb_false_r; reflexivity. }
  rewrite (filter_unfold self t db Unmatched Hv). reflexivity.
Qed.

(** An addressed tweet from Chennai that carries coordinates but was not
    matched by a "geo" rule: nothing but the three log lines. *)
Lemma filter_ignores_witness :
  connects (out_trace (filter sample_self
              (sample_tweet ["addressed-x"; "location-chennai"] (Some chennai)) [])) = [] /\
  statuses (out_trace (filter sample_self
              (sample_tweet ["addressed-x"; "location-chennai"] (Some chennai)) [])) = [].
Proof.
  rewrite (filter_ignores sample_self
             (sample_tweet ["addressed-x"; "location-chennai"] (Some chennai)) []
             eq_refl (or_introl eq_refl)).
  split; reflexivity.
Defined.

(** ** Matching rules *)

Lemma existsb_same_elements {A} (f : A -> bool) (l1 l2 : list A) :
  (forall x, In x l1 <-> In x l2) -> existsb f l1 = existsb f l2.
Proof.
  intros H. apply eq_true_iff_eq. rewrite !existsb_exists.
  split; intros (x & Hin & Hx); exists x; (split; [now apply H | assumption]).
Qed.

Lemma flags_eq (f1 f2 : Flags) :
  geoInBoundingBox f1 = geoInBoundingBox f2 ->
  addressed f1 = addressed f2 ->
  locationMatch f1 = locationMatch f2 -> f1 = f2.
Proof. destruct f1, f2. cbn. now intros -> -> ->. Qed.

(** X5. The flags depend on which rules matched, not on their order or on how
    often one is listed; so do the branch [filter] takes and the line it logs
    for the categories. *)
Theorem categorize_same_rules (rules1 rules2 : list Rule) (g : bool) :
  (forall rule, In rule rules1 <-> In rule rules2) ->
  categorize rules1 = categorize rules2 /\
  first_row (categorize rules1) g = first_row (categorize rules2) g /\
  tweetCategorizations (categorize rules1) g = tweetCategorizations (categorize rules2) g.
Proof.
  intros H.
  assert (E : categorize rules1 = categorize rules2).
  { destruct (categorize_flags rules1) as (G1 & A1 & L1).
    destruct (categorize_flags rules2) as (G2 & A2 & L2).
    apply flags_eq; rewrite ?G1, ?G2, ?A1, ?A2, ?L1, ?L2; now apply existsb_same_elements. }
  now rewrite E.
Qed.

(** The same two rules, reversed and with one repeated. *)
Lemma categorize_same_rules_witness :
  categorize [{| tag := Some "geo-boundingbox" |}; {| tag := Some "addressed-x" |}] =
  categorize [{| tag := Some "addressed-x" |}; {| tag := Some "geo-boundingbox" |};
              {| tag := Some "addressed-x" |}].
Proof.
  refine (proj1 (categorize_same_rules _ _ true _)).
  intros rule. cbn [In]. tauto.
Defined.

Lemma prefix_head (c : ascii) (p t : string) :
  String.prefix (String c p) t = true -> exists r, t = String c r.
Proof.
  intros H. apply prefix_correct in H. destruct t as [|c' r]; [discriminate|].
  cbn in H. injection H as -> _. now exists r.
Qed.

(** X6. A tag belongs to at most one of the three families, so one rule sets at
    most one flag.  A Confirmed tweet was therefore matched by at least two
    different rules, one "geo" and one "addressed", and so was a tweet that
    is asked for its location ("addressed" and "location"). *)
Theorem one_family_per_tag (rules : list Rule) (g : bool) :
  (forall rule,
     (tagged "geo" rule && tagged "addressed" rule = false) /\
     (tagged "geo" rule && tagged "location" rule = false) /\
     (tagged "addressed" rule && tagged "location" rule = false)) /\
  (first_row (categorize rules) g = Some Confirmed ->
   exists r1 r2, In r1 rules /\ In r2 rules /\ r1 <> r2 /\
                 tagged "geo" r1 = true /\ tagged "addressed" r2 = true) /\
  (first_row (categorize rules) g = Some AskForGeo ->
   exists r1 r2, In r1 rules /\ In r2 rules /\ r1 <> r2 /\
                 tagged "addressed" r1 = true /\ tagged "location" r2 = true).
Proof.
  assert (Hdis : forall rule,
     (tagged "geo" rule && tagged "addressed" rule = false) /\
     (tagged "geo" rule && tagged "location" rule = false) /\
     (tagged "addressed" rule && tagged "location" rule = false)).
  { intros [[tg|]]; unfold tagged; cbn [tag]; [|now repeat split].
    repeat split; apply andb_false_iff;
      match goal with
      | |- String.prefix ?p tg = false \/ String.prefix ?q tg = false =>
          destruct (String.prefix p tg) eqn:E1; [|now left];
          destruct (String.prefix q tg) eqn:E2; [|now right];
          apply prefix_head in E1; apply prefix_head in E2;
          destruct E1 as (r1 & ->); destruct E2 as (r2 & [=])
      end. }
  split; [exact Hdis|].
  destruct (categorize_flags rules) as (G & A & L).
  split.
  - intros Hv. apply confirmed_row in Hv. apply andb_prop in Hv. destruct Hv as (Hg & Ha).
    rewrite G in Hg. rewrite A in Ha.
    apply existsb_exists in Hg. apply existsb_exists in Ha.
    destruct Hg as (r1 & Hin1 & H1). destruct Ha as (r2 & Hin2 & H2).
    exists r1, r2. repeat split; try assumption.
    intros ->. destruct (Hdis r2) as (D & _). rewrite H1, H2 in D. discriminate.
  - intros Hv. unfold first_row, priority_table in Hv. cbn [find row_holds] in Hv.
    assert (Ha : addressed (categorize rules) = true /\ locationMatch (categorize rules) = true).
    { destruct (geoInBoundingBox (categorize rules)), (addressed (categorize rules)),
        (locationMatch (categorize rules)), g; cbn in Hv; try discriminate; now split. }
    destruct Ha as (Ha & Hl). rewrite A in Ha. rewrite L in Hl.
    apply existsb_exists in Ha. apply existsb_exists in Hl.
    destruct Ha as (r1 & Hin1 & H1). destruct Hl as (r2 & Hin2 & H2).
    exists r1, r2. repeat split; try assumption.
    intros ->. destruct (Hdis r2) as (_ & _ & D). rewrite H1, H2 in D. discriminate.
Qed.

(** ** The database out of reach *)

Lemma db_bind {A B} (m : M A) (k : A -> M B) (db : Db) :
  out_db ((x <- m ;; k x) db) =
  match out_res (m db) with
  | Ok a => out_db (k a (out_db (m db)))
  | Throw _ => out_db (m db)
  end.
Proof. unfold bind. destruct (out_res (m db)); reflexivity. Qed.

Lemma inert_bind {A B} (m : M A) (k : A -> M B) :
  inert m -> (forall a, inert (k a)) -> inert (x <- m ;; k x).
Proof.
  intros Hm Hk db. destruct (Hm db) as (Hd & Ht).
  rewrite db_bind, trace_bind, forallb_app, Ht.
  destruct (out_res (m db)) as [a|e]; [|now split].
  rewrite Hd. exact (Hk a db).
Qed.

Lemma inert_logger (l : Level) (s : string) : inert (logger l s).
Proof. intros db. now split. Qed.

Section Offline.

Variable self : Self.
Hypothesis pg_down : forall q, connect_error (pg self) q <> None.

Lemma inert_dbQuery (q : Query) success : inert (dbQuery self q success).
Proof.
  intros db. destruct (connect_error (pg self) q) as [err|] eqn:E; [|now elim (pg_down q)].
  rewrite (dbQuery_connect_error _ _ _ _ _ E). now split.
Qed.

Lemma inert_action (t : TweetActivity) (cats : string) (v : Verdict) :
  inert (action self t cats v).
Proof.
  assert (Hgeo : inert (geo_coordinates t)).
  { intros db. unfold geo_coordinates.
    destruct (geo t) as [g|]; [destruct (coordinates g)|]; now split. }
  assert (Hmsg : forall code lang, inert (getMessage self code lang)).
  { intros code lang db. rewrite getMessage_resolve. cbn [out_db out_trace].
    now destruct (resolve self code lang) as [[]|]. }
  assert (Hreply : forall user msg cb, inert (sendReplyTweet self user msg cb)).
  { intros. apply inert_dbQuery. }
  destruct v; unfold action.
  - apply inert_bind; [apply inert_logger|]. intros _.
    unfold insertConfirmed. apply inert_bind; [exact Hgeo|]. intros c. apply inert_dbQuery.
  - apply inert_bind; [apply inert_logger|]. intros _.
    apply inert_bind.
    { unfold insertNonSpatial. apply inert_bind; [apply inert_dbQuery|].
      intros _. apply inert_dbQuery. }
    intros _. apply inert_bind; [apply Hmsg|]. intros m. apply Hreply.
  - apply inert_bind; [apply inert_logger|]. intros _.
    apply inert_bind.
    { unfold insertUnConfirmed. apply inert_bind; [exact Hgeo|]. intros c. apply inert_dbQuery. }
    intros _. apply inert_bind; [apply Hmsg|]. intros m. apply Hreply.
  - apply inert_bind; [apply inert_logger|]. intros _.
    apply inert_bind; [apply Hmsg|]. intros m. apply Hreply.
  - apply inert_logger.
Qed.

Lemma inert_on_tweet (t : TweetActivity) : inert (on_tweet self t).
Proof.
  assert (Hf : inert (filter self t)).
  { destruct (filter_action self t) as (v & _ & ->).
    apply inert_bind; [|intros _; apply inert_action].
    unfold prelude. apply inert_bind; [apply inert_logger | intros _; apply inert_logger]. }
  intros db. destruct (Hf db) as (Hd & Ht).
  pose proof (on_tweet_cases self t db) as E. cbv zeta in E. rewrite E.
  destruct (out_res (filter self t db)); cbn [out_db out_trace forallb local_effect];
    rewrite ?forallb_app, Ht; now split.
Qed.

End Offline.

Lemma local_trace (tr : list Effect) :
  forallb local_effect tr = true ->
  statuses tr = [] /\ forall q, ~ In (ClientQuery q) tr.
Proof.
  induction tr as [|e tr IH]; cbn [forallb statuses]; [now split|].
  intros H. apply andb_prop in H. destruct H as (He & Ht). destruct (IH Ht) as (Hs & Hq).
  destruct e; try discriminate He; (split; [assumption|]);
    intros q' [H|H]; try discriminate H; now apply (Hq q').
Qed.

(** X7. While no connection to the database can be had, handling a tweet sends
    no statement and no status, whatever its branch, and leaves the table of
    all users alone: every reply waits on the existence query. *)
Theorem pg_down_no_reply (self : Self) (t : TweetActivity) (db : Db) :
  (forall q, connect_error (pg self) q <> None) ->
  out_db (on_tweet self t db) = db /\
  statuses (out_trace (on_tweet self t db)) = [] /\
  (forall q, ~ In (ClientQuery q) (out_trace (on_tweet self t db))) /\
  out_res (on_tweet self t db) = Ok tt.
Proof.
  intros Hdown. destruct (inert_on_tweet self Hdown t db) as (Hd & Ht).
  destruct (local_trace _ Ht) as (Hs & Hq).
  repeat split; try assumption. apply on_tweet_returns.
Qed.

(** The invitation of the sample tweet with the pool refusing every
    connection: nothing is tweeted. *)
Lemma pg_down_no_reply_witness :
  statuses (out_trace (on_tweet
    (with_gateways sample_config sample_twit
       {| md5 := md5 sample_pg; connect_error := fun _ => Some "ECONNREFUSED";
          query_error := fun _ => None; on_write := fun _ d => d |})
    (sample_tweet ["location-chennai"] None) [])) = [].
Proof.
  refine (proj1 (proj2 (pg_down_no_reply _ (sample_tweet ["location-chennai"] None) [] _))).
  intros q. discriminate.
Defined.

(** ** Runs of the event loop *)

Lemma run_app (self : Self) (pre post : list Signal) : forall p,
  run self (pre ++ post) p =
  match run self pre p with
  | (tr, Ok p') => let o := run self post p' in ((tr ++ fst o)%list, snd o)
  | (tr, Throw e) => (tr, Throw e)
  end.
Proof.
  induction pre as [|s pre IH]; intros p; cbn [app run].
  - now destruct (run self post p).
  - destruct (deliver self s p) as [tr1 [p1|e]]; [|reflexivity].
    cbv zeta. rewrite IH. destruct (run self pre p1) as [tr2 [p2|e]]; cbn [fst snd].
    + cbv zeta. cbn [fst snd]. now rewrite app_assoc.
    + reflexivity.
Qed.

Lemma harmless_returns (self : Self) (s : Signal) (p : Proc) :
  harmless s = true -> exists p', snd (deliver self s p) = Ok p'.
Proof.
  destruct s; try discriminate; intros _.
  - rewrite deliver_tweet. eexists. reflexivity.
  - eexists. reflexivity.
  - eexists. reflexivity.
  - eexists. reflexivity.
Qed.

(** X8. A run of the event loop dies exactly when it gets to a turn that is
    fatal: the callback of [rules.update] given an error, which it rethrows;
    a call of [stream.start()] that throws, from that callback or from a
    reconnect timer; or a 'ready' while the stream holds no request.  Tweets,
    stream errors, ends and idle timeouts never end a run. *)
Theorem run_survives (self : Self) (sigs : list Signal) (p : Proc) :
  (forall e,
     snd (run self sigs p) = Throw e <->
     exists pre s post p',
       sigs = (pre ++ s :: post)%list /\
       snd (run self pre p) = Ok p' /\
       fatal self s p' e) /\
  (forallb harmless sigs = true -> exists p', snd (run self sigs p) = Ok p').
Proof.
  split.
  - intros e. split.
    + revert p. induction sigs as [|s sigs IH]; intros p; cbn [run]; [discriminate|].
      destruct (deliver self s p) as [tr1 [p1|e1]] eqn:E.
      * cbv zeta. cbn [snd]. intros H.
        destruct (IH p1 H) as (pre & s' & post & p' & -> & Hpre & Hf).
        exists (s :: pre), s', post, p'. split; [reflexivity|]. split; [|exact Hf].
        cbn [run]. rewrite E. cbv zeta. cbn [snd]. exact Hpre.
      * cbn [snd]. intros [= <-]. exists [], s, sigs, p.
        split; [reflexivity|]. split; [reflexivity|].
        apply deliver_throws. now rewrite E.
    + intros (pre & s & post & p' & -> & Hpre & Hf). rewrite run_app.
      destruct (run self pre p) as [tr [p1|e1]]; cbn [snd] in Hpre; [|discriminate].
      injection Hpre as ->. cbv zeta. cbn [snd run].
      apply deliver_throws in Hf.
      destruct (deliver self s p') as [tr1 r1]. cbn [snd] in Hf. now rewrite Hf.
  - revert p. induction sigs as [|s sigs IH]; intros p H; cbn [run].
    + now exists p.
    + cbn [forallb] in H. apply andb_prop in H. destruct H as (Hs & Hrest).
      destruct (harmless_returns self s p Hs) as (p1 & E).
      destruct (deliver self s p) as [tr1 r1]. cbn [snd] in E. subst r1.
      cbv zeta. cbn [snd]. now apply IH.
Qed.

Lemma run_conn_invariant (self : Self) (P : Conn -> Prop) :
  (forall s p p' tr, deliver self s p = (tr, Ok p') -> P (conn p) -> P (conn p')) ->
  forall sigs p p' tr, run self sigs p = (tr, Ok p') -> P (conn p) -> P (conn p').
Proof.
  intros Hstep. induction sigs as [|s sigs IH]; intros p p' tr H Hc; cbn [run] in H.
  - injection H as _ <-. exact Hc.
  - destruct (deliver self s p) as [tr1 [p1|e]] eqn:E; [|discriminate].
    cbv zeta in H. destruct (run self sigs p1) as [tr2 r2] eqn:E2. cbn [fst snd] in H.
    injection H as _ ->. exact (IH p1 p' tr2 E2 (Hstep s p p1 tr1 E Hc)).
Qed.

Lemma doubled_power_of_two (T : JsNum) : power_of_two T -> power_of_two (js_mul T (Num 2)).
Proof.
  intros [-> | (n & Hn & ->)]; [now left|].
  rewrite js_mul_double by lia.
  destruct (n <? 1023)%Z eqn:E; [|now left].
  apply Z.ltb_lt in E. right. exists (n + 1)%Z. split; [lia | reflexivity].
Qed.

Lemma deliver_power_of_two (self : Self) (s : Signal) (p p' : Proc) (tr : list Effect) :
  deliver self s p = (tr, Ok p') ->
  one_timer (conn p) /\ power_of_two (streamReconnectTimeout (conn p)) ->
  one_timer (conn p') /\ power_of_two (streamReconnectTimeout (conn p')).
Proof.
  intros H (Hc & HT). split; [exact (deliver_one_timer self s p p' tr H Hc)|].
  apply deliver_conn in H. destruct s.
  - unfold rules_updated in H. destruct err; [discriminate|].
    destruct (stream_start self (conn p)) as [tr1 [c1|e]] eqn:E; cbn [fst snd] in H;
      [|discriminate].
    injection H as _ <-.
    destruct (stream_start_one_timer self _ _ _ E Hc) as (_ & -> & _). exact HT.
  - unfold on_ready in H. destruct (req (conn p)); [|discriminate].
    injection H as _ <-. right. exists 0%Z. split; [lia | reflexivity].
  - now rewrite H.
  - unfold on_error, reconnectStream in H. cbn [fst snd] in H. now injection H as _ <-.
  - unfold on_end, reconnectStream in H. cbn [fst snd] in H. now injection H as _ <-.
  - unfold on_req_timeout, reconnectStream in H. now injection H as _ <-.
  - unfold timer_fires in H. destruct (existsb _ _) eqn:E; [|injection H as _ <-; exact HT].
    assert (Hc0 : one_timer {| streamReconnectTimeout := streamReconnectTimeout (conn p);
                               reconnectTimeoutHandle := reconnectTimeoutHandle (conn p);
                               req := req (conn p);
                               timers := clear_timer handle (timers (conn p));
                               next_handle := next_handle (conn p) |}).
    { destruct Hc as (Hlt & Hone). split; [exact Hlt|]. left. cbn [timers].
      destruct Hone as [E0 | (h0 & d & E0 & Hh)]; rewrite E0 in *; [discriminate|].
      cbn in E. rewrite orb_false_r in E. apply Nat.eqb_eq in E. subst h0.
      apply clear_timer_one. }
    destruct (reconnectSocket_one_timer self _ _ _ H Hc0) as (_ & -> & _).
    now apply doubled_power_of_two.
Qed.

(** X9. In every state the process can reach, [streamReconnectTimeout] is a
    power of two up to 2^1023, or Infinity once the doubling has overflowed;
    the reconnect a disconnect trigger queues then gets a delay of
    1000 * 2^n ms while n is at most 21 and of 1 ms beyond: the delay is below
    the 1000 ms floor from the twenty-second doubling on, and never above
    1000 * 2^21 ms. *)
Theorem delay_in_reach (self : Self) (p : Proc) (tr : Trigger) :
  reachable self p ->
  (streamReconnectTimeout (conn p) = Infinity /\
   timers (snd (trigger self tr (conn p))) = [(next_handle (conn p), 1%Z)]) \/
  (exists n,
     (0 <= n <= 1023)%Z /\
     streamReconnectTimeout (conn p) = Num (2 ^ n) /\
     timers (snd (trigger self tr (conn p))) =
       [(next_handle (conn p), if (n <=? 21)%Z then (1000 * 2 ^ n)%Z else 1%Z)]).
Proof.
  intros (sigs & db & tr0 & H).
  assert (Hp : one_timer (conn p) /\ power_of_two (streamReconnectTimeout (conn p))).
  { refine (run_conn_invariant self
              (fun c => one_timer c /\ power_of_two (streamReconnectTimeout c))
              (deliver_power_of_two self) sigs _ p tr0 H _).
    split; [split; [discriminate | now left]|]. right. exists 0%Z. split; [lia | reflexivity]. }
  destruct Hp as (Hc & HT).
  destruct (trigger_one_timer self tr (conn p) Hc) as (_ & Ht & _).
  rewrite Ht. destruct HT as [HT | (n & Hn & HT)]; rewrite HT.
  - left. now split.
  - right. exists n. split; [assumption|]. split; [reflexivity|].
    now rewrite node_delay_pow2 by lia.
Qed.

(** Twenty-two reconnects in a row, each after an 'end': the next 'end'
    queues the reconnect for 1 ms. *)
Lemma delay_in_reach_witness :
  let c := failed_attempts sample_self (repeat [EndSignal] 22) initial_conn in
  streamReconnectTimeout c = Num (2 ^ 22) /\
  timers (snd (trigger sample_self EndSignal c)) = [(next_handle c, 1%Z)].
Proof.
  cbv zeta.
  assert (E : streamReconnectTimeout
                (failed_attempts sample_self (repeat [EndSignal] 22) initial_conn) =
              Num (2 ^ 22)) by (vm_compute; reflexivity).
  assert (Hr : reachable sample_self
                 {| conn := failed_attempts sample_self (repeat [EndSignal] 22) initial_conn;
                    store := [] |}).
  { exists (flat_map (fun h => [StreamEnd; TimerFires h]) (seq 0 22)), [].
    eexists. vm_compute. reflexivity. }
  revert E Hr. generalize (failed_attempts sample_self (repeat [EndSignal] 22) initial_conn).
  intros c E Hr. split; [exact E|].
  destruct (delay_in_reach sample_self {| conn := c; store := [] |} EndSignal Hr)
    as [(HT & _) | (n & Hn & HT & Ht)]; cbn [conn] in HT.
  - rewrite E in HT. discriminate HT.
  - cbn [conn] in Ht. rewrite Ht. rewrite E in HT.
    assert (H22 : (2 ^ 22 = 2 ^ n)%Z) by congruence.
    apply (Z.pow_inj_r 2) in H22; try lia. subst n. reflexivity.
Defined.

(** X10. Once a broken session has been reported, by one trigger or several,
    the timer [reconnectTimeoutHandle] refers to is the one queued.  When it
    runs and the stream can be started, the stream is started again and the
    variable doubled.  If the stream holds no request by then (the session
    was reported by an 'end'), no timer is left that could start it a second
    time.  If it still holds one (the idle timeout alone reported it), the
    request is destroyed, [stream.start()] ends it and reports the 'end', and
    the handler queues the next reconnect, for the delay before the
    doubling. *)
Theorem queued_reconnect_outcome (self : Self) (p : Proc) (trs : list Trigger) :
  reachable self p -> startable self -> trs <> [] ->
  let c := triggers self trs (conn p) in
  exists h c',
    reconnectTimeoutHandle c = Some h /\
    snd (timer_fires self h c) = Ok c' /\
    req c' = true /\
    streamReconnectTimeout c' = js_mul (streamReconnectTimeout c) (Num 2) /\
    (req c = false ->
     fst (timer_fires self h c) =
       [Log warn "connectStream: Connection lost, destroying socket";
        Log info "connectStream: Attempting to reconnect stream"; StreamStart] /\
     timers c' = [] /\
     forall h', timer_fires self h' c' = ([], Ok c')) /\
    (req c = true ->
     fst (timer_fires self h c) =
       [Log warn "connectStream: Connection lost, destroying socket"; ReqDestroy;
        Log info "connectStream: Attempting to reconnect stream"; StreamStart; ReqAbort;
        Log error "connectStream: Stream ended"; ClearTimeout h;
        Log info ("connectStream: queing reconnect for " ++
                  show_num self (streamReconnectTimeout c));
        SetTimeout (next_handle c) (js_mul (streamReconnectTimeout c) (Num 1000))] /\
     timers c' = [(next_handle c, node_delay (js_mul (streamReconnectTimeout c) (Num 1000)))]).
Proof.
  intros Hr Hs Hne c.
  destruct (triggers_one_timer self trs (conn p) (reachable_one_timer self p Hr) Hne)
    as (_ & _ & h & Ht & Hh).
  fold c in Ht, Hh. exists h.
  assert (E : timer_fires self h c =
              reconnectSocket self
                {| streamReconnectTimeout := streamReconnectTimeout c;
                   reconnectTimeoutHandle := reconnectTimeoutHandle c;
                   req := req c; timers := []; next_handle := next_handle c |}).
  { unfold timer_fires. rewrite Ht. cbn [existsb fst]. rewrite Nat.eqb_refl. cbn [orb].
    now rewrite clear_timer_one. }
  rewrite E. unfold reconnectSocket, stream_start. rewrite Hs.
  unfold library_end. cbn [req].
  destruct (req c) eqn:Hreq.
  - eexists. split; [exact Hh|]. cbn [snd fst]. split; [reflexivity|].
    split; [reflexivity|]. split; [reflexivity|]. split; [discriminate|]. intros _.
    cbn [on_end ended reconnectStream fst snd reconnectTimeoutHandle timers next_handle
         streamReconnectTimeout requesting app].
    rewrite Hh. cbn [clear_timer List.filter app]. split; reflexivity.
  - eexists. split; [exact Hh|]. cbn [snd fst]. split; [reflexivity|].
    split; [reflexivity|]. split; [reflexivity|]. split; [|discriminate]. intros _.
    split; [reflexivity|]. split; [reflexivity|]. intros h'. reflexivity.
Qed.

(** After the stream was ready: 'error' and 'end' together, the timer runs
    and nothing is queued after it; the idle timeout alone, the timer runs
    and the next reconnect is queued for 1000 ms, the variable being 2. *)
Lemma queued_reconnect_outcome_witness :
  (exists h c',
     snd (timer_fires sample_self h
            (triggers sample_self [ErrorSignal "ECONNRESET"; EndSignal] ready_conn)) = Ok c' /\
     timers c' = []) /\
  (exists h c',
     snd (timer_fires sample_self h (triggers sample_self [IdleTimeout] ready_conn)) = Ok c' /\
     streamReconnectTimeout c' = Num 2 /\
     timers c' = [(1, 1000%Z)]).
Proof.
  assert (Hr : reachable sample_self {| conn := ready_conn; store := [] |}).
  { exists [RulesAnswer None; Ready], []. eexists. reflexivity. }
  split.
  - destruct (queued_reconnect_outcome sample_self {| conn := ready_conn; store := [] |}
                [ErrorSignal "ECONNRESET"; EndSignal] Hr eq_refl)
      as (h & c' & _ & Hc' & _ & _ & Hended & _); [discriminate|].
    exists h, c'. split; [exact Hc'|]. exact (proj1 (proj2 (Hended eq_refl))).
  - destruct (queued_reconnect_outcome sample_self {| conn := ready_conn; store := [] |}
                [IdleTimeout] Hr eq_refl)
      as (h & c' & _ & Hc' & _ & HT & _ & Hopen); [discriminate|].
    exists h, c'. split; [exact Hc'|]. split; [exact HT|]. exact (proj2 (Hopen eq_refl)).
Defined.

(** ** How often the stream is started *)

Lemma starts_app (l1 l2 : list Effect) : starts (l1 ++ l2) = starts l1 + starts l2.
Proof.
  induction l1 as [|e l1 IH]; [reflexivity|].
  destruct e; cbn [app starts]; lia.
Qed.

Lemma aborts_app (l1 l2 : list Effect) : aborts (l1 ++ l2) = aborts l1 + aborts l2.
Proof.
  induction l1 as [|e l1 IH]; [reflexivity|].
  destruct e; cbn [app aborts]; lia.
Qed.

Lemma total_start (tr : list Effect) : total start_weight tr = Z.of_nat (starts tr).
Proof.
  induction tr as [|e tr IH]; [reflexivity|].
  destruct e; cbn [total start_weight starts]; lia.
Qed.

(** Handling a tweet never touches the stream. *)
Lemma on_tweet_no_start (self : Self) (t : TweetActivity) (db : Db) :
  starts (out_trace (on_tweet self t db)) = 0.
Proof.
  destruct (first_row_total (categorize (gnip_matching_rules t)) (hasGeo t)) as (v & Hv).
  pose proof (bounded_on_tweet start_weight (fun _ _ => eq_refl) (fun _ => eq_refl)
                (fun _ => eq_refl) (fun _ => Z.le_refl 0) self t v Hv db) as H.
  rewrite total_start in H. unfold reply_weight in H.
  destruct (twitter_send_enabled (config self)); [destruct (reply_status self t v)|];
    cbn [start_weight] in H; lia.
Qed.

Lemma clear_timer_length (h : nat) (l : list (nat * Z)) :
  length (clear_timer h l) <= length l /\
  (existsb (fun t => Nat.eqb (fst t) h) l = true -> length (clear_timer h l) < length l).
Proof.
  unfold clear_timer. induction l as [|x l (IH1 & IH2)]; cbn [List.filter existsb length].
  - split; [lia | discriminate].
  - destruct (Nat.eqb (fst x) h); cbn [negb orb length].
    + split; [lia | intros _; lia].
    + split; [lia | intros H; specialize (IH2 H); lia].
Qed.

Lemma reconnectStream_starts (self : Self) (c : Conn) :
  starts (fst (reconnectStream self c)) = 0 /\
  aborts (fst (reconnectStream self c)) = 0 /\
  length (timers (snd (reconnectStream self c))) <= S (length (timers c)).
Proof.
  unfold reconnectStream. cbn [fst snd timers]. rewrite length_app. cbn [length].
  destruct (reconnectTimeoutHandle c) as [h|].
  - pose proof (proj1 (clear_timer_length h (timers c))). repeat split; lia.
  - repeat split; lia.
Qed.

(** [stream.start()]: one start; a timer more only when a request was
    dropped. *)
Lemma stream_start_starts (self : Self) (c : Conn) :
  starts (fst (stream_start self c)) = 1 /\
  match snd (stream_start self c) with
  | Ok c' => length (timers c') <= aborts (fst (stream_start self c)) + length (timers c)
  | Throw _ => True
  end.
Proof.
  unfold stream_start. destruct (start_throws _ _); [now split|].
  unfold library_end. destruct (req c); cbn [fst snd starts aborts requesting timers on_end].
  - destruct (reconnectStream_starts self (ended c)) as (H1 & H2 & H3).
    cbn [ended timers] in H3. rewrite H1. split; lia.
  - split; lia.
Qed.

Lemma deliver_starts (self : Self) (s : Signal) (p : Proc) :
  starts (fst (deliver self s p)) + pending (snd (deliver self s p)) <=
  permits s + aborts (fst (deliver self s p)) + length (timers (conn p)).
Proof.
  destruct (reconnectStream_starts self (conn p)) as (Hs & _ & Hl).
  destruct (reconnectStream_starts self (ended (conn p))) as (Hs' & _ & Hl').
  cbn [ended timers] in Hl'.
  destruct s.
  - destruct err as [e|]; cbn [deliver rules_updated fst snd pending permits starts]; [lia|].
    destruct (stream_start_starts self (conn p)) as (H1 & H2).
    destruct (snd (stream_start self (conn p))); cbn [pending conn aborts]; lia.
  - cbn [deliver fst snd]. unfold on_ready.
    destruct (req (conn p)); cbn [fst snd pending conn timers starts permits]; lia.
  - rewrite deliver_tweet. unfold deliver. cbn [fst pending conn permits].
    rewrite on_tweet_no_start. lia.
  - cbn [deliver fst snd pending conn permits on_error starts]. lia.
  - cbn [deliver fst snd pending conn permits on_end starts]. lia.
  - cbn [deliver fst snd pending conn permits]. unfold on_req_timeout. lia.
  - cbn [deliver fst snd permits]. unfold timer_fires.
    destruct (existsb _ (timers (conn p))) eqn:E; [|cbn; lia].
    pose proof (proj2 (clear_timer_length handle (timers (conn p))) E) as Hlt.
    unfold reconnectSocket.
    match goal with |- context [stream_start self ?c0] =>
      destruct (stream_start_starts self c0) as (H1 & H2);
      destruct (stream_start self c0) as [tr1 [c1|e]]
    end; cbn [fst snd pending conn timers] in *;
      rewrite !starts_app, !aborts_app, H1;
      destruct (req (conn p)); cbn [starts aborts app req]; lia.
Qed.

(** X11. Over any run, [stream.start] is called at most once for every rules
    push that succeeded and once for every report of a broken session:
    'error', 'end' or idle timeout handed to the handlers, and the 'end' the
    stream reports from inside [stream.start()] when it drops the request it
    still holds; the reconnects still queued count as calls.  Tweets never
    start it. *)
Theorem starts_bounded (self : Self) (sigs : list Signal) (p : Proc) :
  starts (fst (run self sigs p)) + pending (snd (run self sigs p)) <=
  list_sum (map permits sigs) + aborts (fst (run self sigs p)) + length (timers (conn p)).
Proof.
  revert p. induction sigs as [|s sigs IH]; intros p; cbn [run map list_sum].
  - cbn. lia.
  - pose proof (deliver_starts self s p) as Hs.
    destruct (deliver self s p) as [tr1 [p1|e]]; cbn [fst snd pending] in *.
    + specialize (IH p1). rewrite starts_app, aborts_app.
      unfold list_sum in *. cbn [fold_right]. lia.
    + unfold list_sum. cbn [fold_right]. lia.
Qed.

(** ** Texts that resolve *)

(** X12. [getMessage] never returns the empty string, nor undefined: it
    returns null, and then it has logged its warning, or a value that is
    truthy, and then it has logged nothing.  A text set to the empty string
    counts as missing.  The table of all users is left alone. *)
Theorem getMessage_never_empty (self : Self) (code lang : string) (db : Db) :
  exists v,
    out_res (getMessage self code lang db) = Ok v /\
    out_db (getMessage self code lang db) = db /\
    v <> JStr "" /\ v <> JUndefined /\
    ((v = JNull /\ out_trace (getMessage self code lang db) = [unresolved_line code lang]) \/
     (js_truthy v = true /\ out_trace (getMessage self code lang db) = [])).
Proof.
  rewrite getMessage_resolve. cbn [out_res out_db out_trace].
  exists (resolve self code lang). split; [reflexivity|]. split; [reflexivity|].
  assert (H : resolve self code lang = JNull \/ js_truthy (resolve self code lang) = true).
  { unfold resolve.
    destruct (js_truthy (js_get self (twitter_object (config self)) code)); [|now left].
    destruct (js_truthy (js_get self _ lang)) eqn:E1; [now right|].
    destruct (js_truthy (js_get self _ (twitter_defaultLanguage (config self)))) eqn:E2;
      [now right | now left]. }
  destruct H as [H | H].
  - rewrite H. split; [discriminate|]. split; [discriminate|]. left. now split.
  - split; [intros E; rewrite E in H; discriminate|].
    split; [intros E; rewrite E in H; discriminate|].
    right. split; [assumption|].
    destruct (resolve self code lang) as [[]|]; try reflexivity; discriminate.
Qed.

(** ** The statements of each branch *)

Lemma connects_bind {A B} (m : M A) (k : A -> M B) (db : Db) :
  connects (out_trace ((x <- m ;; k x) db)) =
  (connects (out_trace (m db)) ++
   match out_res (m db) with
   | Ok a => connects (out_trace (k a (out_db (m db))))
   | Throw _ => []
   end)%list.
Proof. rewrite trace_bind, connects_app. now destruct (out_res (m db)). Qed.

Lemma connects_try_catch (m : M unit) (db : Db) :
  connects (out_trace (try_catch m callback_failed db)) = connects (out_trace (m db)).
Proof.
  rewrite trace_try_catch, connects_app.
  destruct (out_res (m db)); cbn; now rewrite app_nil_r.
Qed.

Lemma connects_sendReplyTweet (self : Self) (user : string) (msg : JsVal)
    (cb : option (M unit)) (db : Db) :
  exists l,
    connects (out_trace (sendReplyTweet self user msg cb db)) = user_query self user :: l /\
    (l = [] \/ exists m, cb = Some m /\ l = connects (out_trace (m db))).
Proof.
  rewrite sendReplyTweet_cases.
  destruct (existence_query self user db) as [[|r rows]|] eqn:E.
  - assert (Hcb : connects (out_trace (try_catch (run_callback cb) callback_failed db)) = [] \/
                  exists m, cb = Some m /\
                    connects (out_trace (try_catch (run_callback cb) callback_failed db)) =
                    connects (out_trace (m db))).
    { rewrite connects_try_catch. destruct cb as [m|]; [right; now exists m | now left]. }
    destruct (to_text msg) as [tx|]; cycle 1.
    { exists []. split; [|now left]. unfold cannot_convert_line.
      destruct (twitter_send_enabled (config self)); reflexivity. }
    destruct (twitter_send_enabled (config self)).
    + destruct (updateStatus_error (twit self) (status_text user msg)).
      * exists []. split; [reflexivity | now left].
      * eexists. split; [cbv zeta; cbn [out_trace]; rewrite connects_app; reflexivity|].
        exact Hcb.
    + eexists. split; [cbv zeta; cbn [out_trace]; rewrite connects_app; reflexivity|].
      exact Hcb.
  - exists []. split; [reflexivity | now left].
  - destruct (failed_query_trace self user db E) as (err & [-> | ->]);
      exists []; (split; [reflexivity | now left]).
Qed.

Lemma getMessage_issues_nothing (self : Self) (code lang : string) :
  connects (match resolve self code lang with
            | JNull => [unresolved_line code lang]
            | _ => []
            end) = [].
Proof. now destruct (resolve self code lang) as [[]|]. Qed.

Lemma connects_insertNonSpatial (self : Self) (t : TweetActivity) (db : Db) :
  let uq := user_query self (actor_preferredUsername t) in
  connects (out_trace (insertNonSpatial self t db)) = [nonspatial_query self t; uq] \/
  connects (out_trace (insertNonSpatial self t db)) =
    [nonspatial_query self t; uq; nonspatial_user_query self t].
Proof.
  cbv zeta. unfold insertNonSpatial. rewrite connects_bind, dbQuery_returns.
  rewrite (proj1 (dbQuery_logging_connects self (nonspatial_query self t) _ db)).
  set (db1 := out_db _). rewrite ifNewUser_cases.
  destruct (existence_query self (actor_preferredUsername t) db1) as [[|r rows]|] eqn:E.
  - right. cbv zeta. cbn [out_trace]. rewrite connects_app, connects_try_catch.
    now rewrite (proj1 (dbQuery_logging_connects self (nonspatial_user_query self t) _ db1)).
  - left. reflexivity.
  - left. destruct (failed_query_trace self _ db1 E) as (err & [-> | ->]); reflexivity.
Qed.

(** X13. The statements each branch hands to the database, whatever fails among
    them.  An invitation checks the author and then may record the invitee.
    A request for the location inserts the non-spatial report and checks the
    author twice, once to record the non-spatial user and once for the
    reply: a failed report insert stops neither (the two checks belong to
    independent chains of callbacks, so only which statements are issued is
    stated, not how the chains interleave).  An unconfirmed report with
    coordinates is inserted first, and then the invitation follows, whether
    the insert succeeded or not.  A confirmed report with coordinates is
    inserted, and the user upsert may follow. *)
Theorem statements_per_branch (self : Self) (t : TweetActivity) (db : Db) (v : Verdict) :
  first_row (categorize (gnip_matching_rules t)) (hasGeo t) = Some v ->
  let C := connects (out_trace (filter self t db)) in
  let uq := user_query self (actor_preferredUsername t) in
  match v with
  | Invite => C = [uq] \/ C = [uq; invitee_query self t]
  | AskForGeo =>
      Permutation C [nonspatial_query self t; uq; uq] \/
      Permutation C [nonspatial_query self t; uq; uq; nonspatial_user_query self t]
  | Unconfirmed =>
      forall g c, geo t = Some g -> coordinates g = Some c ->
        C = [unconfirmed_query self t c; uq] \/
        C = [unconfirmed_query self t c; uq; invitee_query self t]
  | Confirmed =>
      forall g c, geo t = Some g -> coordinates g = Some c ->
        C = [confirmed_query self t c] \/
        C = [confirmed_query self t c; upsert_query t]
  | Unmatched => C = []
  end.
Proof.
  intros Hv C uq. subst C.
  rewrite (filter_unfold self t db v Hv). cbv zeta. cbn [out_trace]. rewrite connects_app.
  change (connects (out_trace (prelude t db))) with (@nil Query). cbn [app].
  assert (Hinv : forall db', connects (out_trace (insertInvitee self t db')) = [invitee_query self t]).
  { intros db'. apply dbQuery_logging_connects. }
  assert (Hreply : forall msg db',
            connects (out_trace (sendReplyTweet self (actor_preferredUsername t) msg
                                   (Some (insertInvitee self t)) db')) = [uq] \/
            connects (out_trace (sendReplyTweet self (actor_preferredUsername t) msg
                                   (Some (insertInvitee self t)) db')) = [uq; invitee_query self t]).
  { intros msg db'.
    destruct (connects_sendReplyTweet self (actor_preferredUsername t) msg
                (Some (insertInvitee self t)) db') as (l & -> & [-> | (m & [= <-] & ->)]);
      [now left | right; now rewrite Hinv]. }
  destruct v; unfold action.
  - intros g c Hg Hc. rewrite connects_bind. cbn [logger emit out_trace out_res out_db connects app].
    unfold insertConfirmed.
    assert (Hgc : geo_coordinates t db = mkOut [] db (Ok c)).
    { unfold geo_coordinates. now rewrite Hg, Hc. }
    rewrite connects_bind, Hgc. cbn [out_trace out_res out_db connects app].
    destruct (connect_error (pg self) (confirmed_query self t c)) as [e1|] eqn:H1.
    { left. now rewrite (dbQuery_connect_error _ _ _ _ _ H1). }
    destruct (query_error (pg self) (confirmed_query self t c)) as [e2|] eqn:H2.
    { left. now rewrite (dbQuery_query_error _ _ _ _ _ H1 H2). }
    right. rewrite (dbQuery_success _ _ _ _ H1 H2). cbv zeta. cbn [out_trace].
    rewrite connects_app, connects_try_catch, connects_bind.
    cbn [logger emit out_trace out_res out_db connects app answered].
    now rewrite (proj1 (dbQuery_logging_connects self (upsert_query t) _ _)).
  - rewrite connects_bind. cbn [logger emit out_trace out_res out_db connects app].
    rewrite connects_bind, insertNonSpatial_returns.
    rewrite connects_bind, getMessage_resolve. cbn [out_trace out_res out_db].
    rewrite getMessage_issues_nothing. cbn [app].
    destruct (connects_sendReplyTweet self (actor_preferredUsername t)
                (resolve self "thanks_text" (twitter_lang t)) None
                (out_db (insertNonSpatial self t db)))
      as (l & -> & [-> | (m & [=] & _)]).
    destruct (connects_insertNonSpatial self t db) as [-> | ->]; [left | right]; cbn [app].
    + apply Permutation_refl.
    + do 2 apply perm_skip. apply perm_swap.
  - intros g c Hg Hc. rewrite connects_bind. cbn [logger emit out_trace out_res out_db connects app].
    assert (Hgc : geo_coordinates t db = mkOut [] db (Ok c)).
    { unfold geo_coordinates. now rewrite Hg, Hc. }
    assert (Hun : connects (out_trace (insertUnConfirmed self t db)) = [unconfirmed_query self t c] /\
                  out_res (insertUnConfirmed self t db) = Ok tt).
    { unfold insertUnConfirmed. rewrite connects_bind, res_bind, Hgc.
      cbn [out_trace out_res out_db connects app]. rewrite dbQuery_returns.
      split; [apply dbQuery_logging_connects | reflexivity]. }
    destruct Hun as (Hun & Hres).
    rewrite connects_bind, Hun, Hres.
    rewrite connects_bind, getMessage_resolve. cbn [out_trace out_res out_db].
    rewrite getMessage_issues_nothing. cbn [app].
    destruct (Hreply (resolve self "invite_text" (twitter_lang t))
                (out_db (insertUnConfirmed self t db))) as [-> | ->]; [now left | now right].
  - rewrite connects_bind. cbn [logger emit out_trace out_res out_db connects app].
    rewrite connects_bind, getMessage_resolve. cbn [out_trace out_res out_db].
    rewrite getMessage_issues_nothing. cbn [app]. apply Hreply.
  - reflexivity.
Qed.

(** The request for a location, to an author not yet known: four statements. *)
Lemma statements_per_branch_witness :
  let t := sample_tweet ["addressed-x"; "location-chennai"] None in
  Permutation (connects (out_trace (filter sample_self t [])))
    [nonspatial_query sample_self t; user_query sample_self "alice"; user_query sample_self "alice"] \/
  Permutation (connects (out_trace (filter sample_self t [])))
    [nonspatial_query sample_self t; user_query sample_self "alice";
     user_query sample_self "alice"; nonspatial_user_query sample_self t].
Proof.
  exact (statements_per_branch sample_self (sample_tweet ["addressed-x"; "location-chennai"] None)
           [] AskForGeo eq_refl).
Defined.
